(** * apply_bpe: a shallow embedding of DeepDL/apply_bpe.py

    The development follows the layout of the Python module: the string
    primitives the module relies on ([str.strip], [str.split], [str.join],
    slices), the fragment of [re] it calls, the module-level functions
    [encode], [recursive_split], [check_vocab_and_split] and
    [isolate_glossary], and finally the class [BPE].

    Conventions.
    - A Python [str] is a [string]; one [ascii] stands for one character
      (code points below 256).
    - A [dict] that is only looked up is a [gmap]; where the iteration order
      of a dict matters (the construction of the reverse index) the dict is
      an association list in insertion order.
    - Mutable interpreter state (the cache of the tokenizer, the position in
      the stream of [random.random()] draws, the recursion limit) is threaded
      explicitly, see [State].
    - Exceptions are values of [exn]; a computation returns a [result]. *)

From Stdlib Require Import ZArith QArith Ascii String List DecimalString.
From stdpp Require Import gmap strings list.

Local Open Scope nat_scope.

(** ** Python strings *)

Module PyStr.

Definition LF : ascii := "010"%char.
Definition CR : ascii := "013"%char.
Definition SP : ascii := " "%char.

(** The character set ['\r\n '] passed to every [strip] of the module. *)
Definition crlfsp (c : ascii) : bool :=
  Ascii.eqb c CR || Ascii.eqb c LF || Ascii.eqb c SP.

Definition is_lf (c : ascii) : bool := Ascii.eqb c LF.

(** [str.isspace] on code points below 256: what [str.split()] with no
    argument separates on. *)
Definition isspace (c : ascii) : bool :=
  let n := nat_of_ascii c in
  ((9 <=? n) && (n <=? 13)) || ((28 <=? n) && (n <=? 32))
  || (n =? 133) || (n =? 160).

Definition char (c : ascii) : string := String c "".

(** [s.lstrip(chars)], [s.rstrip(chars)], [s.strip(chars)] *)
Fixpoint lstrip (p : ascii → bool) (s : string) : string :=
  match s with
  | "" => ""
  | String c s' => if p c then lstrip p s' else s
  end.

Fixpoint rstrip (p : ascii → bool) (s : string) : string :=
  match s with
  | "" => ""
  | String c s' =>
      match rstrip p s' with
      | "" => if p c then "" else char c
      | r => String c r
      end
  end.

Definition strip (p : ascii → bool) (s : string) : string :=
  lstrip p (rstrip p s).

(** [s.split(sep)] for a one-character separator: never empty,
    [''.split(' ') = ['']]. *)
Fixpoint split (sep : ascii) (s : string) : list string :=
  match s with
  | "" => [""]
  | String c s' =>
      if Ascii.eqb c sep then "" :: split sep s'
      else match split sep s' with
           | h :: t => String c h :: t
           | [] => [char c]
           end
  end.

(** [s.split()]: maximal runs of non-space characters. *)
Fixpoint split_ws_go (cur : string) (s : string) : list string :=
  match s with
  | "" => match cur with "" => [] | _ => [String.rev cur] end
  | String c s' =>
      if isspace c
      then match cur with
           | "" => split_ws_go "" s'
           | _ => String.rev cur :: split_ws_go "" s'
           end
      else split_ws_go (String c cur) s'
  end.
Definition split_ws (s : string) : list string := split_ws_go "" s.

(** [sep.join(l)] *)
Definition join (sep : string) (l : list string) : string :=
  String.concat sep l.

(** [list(s)]: the characters of [s], each a string of length one. *)
Fixpoint chars (s : string) : list string :=
  match s with
  | "" => []
  | String c s' => char c :: chars s'
  end.

Definition startswith (p s : string) : bool := String.prefix p s.

(** [s[:-n]] for [n > 0]: empty when [s] has at most [n] characters. *)
Definition drop_end (n : nat) (s : string) : string :=
  String.substring 0 (String.length s - n) s.

(** [s[-n:]] for [n > 0]: the whole of [s] when it has at most [n]
    characters. *)
Definition take_end (n : nat) (s : string) : string :=
  String.substring (String.length s - n) n s.

(** [s[:n]] *)
Definition take_start (n : nat) (s : string) : string :=
  String.substring 0 n s.

Definition endswith (suf s : string) : bool :=
  (String.length suf <=? String.length s)
  && String.eqb (take_end (String.length suf) s) suf.

(** [sub in s] *)
Fixpoint contains (sub s : string) : bool :=
  String.prefix sub s
  || match s with
     | "" => false
     | String _ s' => contains sub s'
     end.

(** [int(s)] on a token without surrounding blanks: an optional sign and
    decimal digits, single underscores allowed between digits. *)
Definition digit (c : ascii) : option Z :=
  let n := nat_of_ascii c in
  if (48 <=? n) && (n <=? 57) then Some (Z.of_nat (n - 48)) else None.

Fixpoint digits (acc : Z) (after_digit : bool) (s : string) : option Z :=
  match s with
  | "" => if after_digit then Some acc else None
  | String c s' =>
      match digit c with
      | Some d => digits (10 * acc + d)%Z true s'
      | None =>
          if Ascii.eqb c "_"%char && after_digit
          then match s' with
               | "" => None
               | String c' _ =>
                   match digit c' with
                   | Some _ => digits acc false s'
                   | None => None
                   end
               end
          else None
      end
  end.

Definition int (s : string) : option Z :=
  match s with
  | String "-" s' => Z.opp <$> digits 0 false s'
  | String "+" s' => digits 0 false s'
  | _ => digits 0 false s
  end.

(** ['{0}'.format(n)] for a natural number. *)
Definition of_nat (n : nat) : string :=
  NilEmpty.string_of_uint (Nat.to_uint n).

End PyStr.

(** ** The fragment of [re] used by the module

    Glossary entries are regular expressions in the source.  The functions
    below give the behaviour of [re] on patterns that are literal strings
    (no metacharacters), which is what the glossary is documented to hold.
    [encode] itself does not depend on this fragment: it receives the
    compiled whole-word pattern as a predicate. *)

Module Re.

(** [re.match('^' + g + '$', s)]: [$] also matches just before a final
    newline. *)
Definition match_anchored (g s : string) : bool :=
  String.eqb s g || String.eqb s (g +:+ PyStr.char PyStr.LF).

(** [re.compile('^(g1|...|gn)$').match(s)] *)
Definition match_alternatives (gs : list string) (s : string) : bool :=
  existsb (fun g => match_anchored g s) gs.

(** [re.search(g, s)] *)
Definition search (g s : string) : bool := PyStr.contains g s.

(** [re.split('(' + g + ')', s)]: the text between successive leftmost
    non-overlapping occurrences of [g], with [g] itself in between.
    [skip] counts the characters of the current occurrence still to be
    consumed, [cur] is the text since the previous occurrence, reversed. *)
Fixpoint split_go (g : string) (skip : nat) (cur : string) (s : string)
  : list string :=
  match s with
  | "" => [String.rev cur]
  | String c s' =>
      match skip with
      | S k => split_go g k cur s'
      | O =>
          if String.prefix g s
          then String.rev cur :: g :: split_go g (String.length g - 1) "" s'
          else split_go g 0 (String c cur) s'
      end
  end.

(** An empty pattern matches before every character and at the end. *)
Definition split_group (g s : string) : list string :=
  match g with
  | "" => "" :: "" :: flat_map (fun c => [c; ""]) (PyStr.chars s) ++ [""]
  | _ => split_go g 0 "" s
  end.

End Re.

(** ** Results and interpreter state *)

(** The ways a call can fail. [SystemExit] carries the exit status and what
    was written to [sys.stderr] before [sys.exit].  [LoopFuel] is not an
    exception of Python: it stands for the [while] loop of [encode] running
    out of the fuel the model gives it, which never happens
    (see [encode_never_out_of_fuel]). *)
Inductive exn : Type :=
| SystemExit (status : Z) (stderr : string)
| ValueError
| IndexError
| NotImplementedError
| RecursionError
| LoopFuel.

Inductive result (A : Type) : Type :=
| Ok (a : A)
| Raise (e : exn).
Arguments Ok {A} a.
Arguments Raise {A} e.

(** A symbol is a string fragment. *)
Abbreviation Symbol := string (only parsing).

(** What [encode] returns and the cache stores: the word itself (a [str]),
    a tuple of subwords, or the list built by [check_vocab_and_split]. *)
Inductive pyseq : Type :=
| PStr (s : string)
| PTuple (l : list Symbol)
| PList (l : list Symbol).

(** Iterating over the returned value, as [segment_tokens] does. *)
Definition items (v : pyseq) : list Symbol :=
  match v with
  | PStr s => PyStr.chars s
  | PTuple l => l
  | PList l => l
  end.

(** What a call can read and change besides its arguments: the dict
    [self.cache] (passed to [encode] as [cache]), the stream of values
    [random.random()] returns together with the number of values drawn so
    far, and the recursion depth the interpreter allows. *)
Record State : Type := mkState {
  st_cache : gmap string pyseq;
  st_random : nat → Q;
  st_drawn : nat;
  st_recursion_limit : nat
}.

Definition set_cache (c : gmap string pyseq) (st : State) : State :=
  mkState c (st_random st) (st_drawn st) (st_recursion_limit st).

Definition set_drawn (n : nat) (st : State) : State :=
  mkState (st_cache st) (st_random st) n (st_recursion_limit st).

(** Computations that may raise and that thread the state. An exception
    leaves the state as it was when raised. *)
Definition M (A : Type) : Type := State → result A * State.

Definition ret {A} (a : A) : M A := fun st => (Ok a, st).
Definition raise {A} (e : exn) : M A := fun st => (Raise e, st).
Definition bind {A B} (m : M A) (k : A → M B) : M B :=
  fun st =>
    match m st with
    | (Ok a, st') => k a st'
    | (Raise e, st') => (Raise e, st')
    end.

#[global] Instance M_ret : MRet M := @ret.
#[global] Instance M_bind : MBind M := fun A B k m => bind m k.

(** ** The merge loop of [encode] *)

Definition END_MARKER : string := "</w>".

(** Truth value of the [dropout] argument: [not dropout]. *)
Definition no_dropout (dropout : Q) : bool := Qeq_bool dropout 0.

(** A candidate [(bpe_codes[pair], i, pair)]. *)
Definition cand : Type := nat * nat * (Symbol * Symbol).

Definition cand_pair (c : cand) : Symbol * Symbol := snd c.
Definition cand_pos (c : cand) : nat := snd (fst c).
Definition cand_rank (c : cand) : nat := fst (fst c).

(** [zip(word, word[1:])] *)
Definition adjacent (word : list Symbol) : list (Symbol * Symbol) :=
  zip word (tail word).

(** The list comprehension of the loop body, started at index [i]:
    [[(bpe_codes[pair], i, pair) for (i, pair) in enumerate(...)
      if (not dropout or random.random() > dropout) and pair in bpe_codes]].
    Under dropout one draw is consumed for every adjacent pair, before the
    table is consulted. *)
Fixpoint get_pairs (bpe_codes : gmap (Symbol * Symbol) nat) (dropout : Q)
    (random : nat → Q) (i : nat) (ps : list (Symbol * Symbol)) (drawn : nat)
  : list cand * nat :=
  match ps with
  | [] => ([], drawn)
  | p :: ps' =>
      let '(keep, drawn1) :=
        if no_dropout dropout then (true, drawn)
        else (negb (Qle_bool (random drawn) dropout), S drawn) in
      let '(rest, drawn2) :=
        get_pairs bpe_codes dropout random (S i) ps' drawn1 in
      match (if keep then bpe_codes !! p else None) with
      | Some rank => ((rank, i, p) :: rest, drawn2)
      | None => (rest, drawn2)
      end
  end.

(** Tuple order of Python on candidates: rank, then position, then the pair
    (positions are distinct, so the pair never decides). *)
Definition pair_ltb (p q : Symbol * Symbol) : bool :=
  String.ltb (fst p) (fst q)
  || (String.eqb (fst p) (fst q) && String.ltb (snd p) (snd q)).

Definition cand_ltb (a b : cand) : bool :=
  (cand_rank a <? cand_rank b)
  || ((cand_rank a =? cand_rank b)
      && ((cand_pos a <? cand_pos b)
          || ((cand_pos a =? cand_pos b)
              && pair_ltb (cand_pair a) (cand_pair b)))).

(** [min(pairs)] of a non-empty list: the first least element. *)
Definition min_cand (c : cand) (cs : list cand) : cand :=
  fold_left (fun best x => if cand_ltb x best then x else best) cs c.

Definition pair_eqb (p q : Symbol * Symbol) : bool :=
  String.eqb (fst p) (fst q) && String.eqb (snd p) (snd q).

(** [[i for (rank, i, pair) in pairs if pair == bigram]] *)
Definition positions_of (bigram : Symbol * Symbol) (pairs : list cand)
  : list nat :=
  map cand_pos (List.filter (fun c => pair_eqb (cand_pair c) bigram) pairs).

(** [word[i:j]] *)
Definition slice (word : list Symbol) (i j : nat) : list Symbol :=
  take (j - i) (drop i word).

(** The [for j in positions] loop with its two variables [i] and
    [new_word], followed by [new_word.extend(word[i:])]. *)
Fixpoint merge_positions (word : list Symbol) (bigram : Symbol)
    (positions : list nat) (i : nat) (new_word : list Symbol) : list Symbol :=
  match positions with
  | [] => new_word ++ drop i word
  | j :: rest =>
      if j <? i then merge_positions word bigram rest i new_word
      else merge_positions word bigram rest (j + 2)
             (new_word ++ slice word i j ++ [bigram])
  end.

(** One iteration of the [while] body: [None] is the [break] taken when no
    candidate survives. *)
Definition merge_pass (bpe_codes : gmap (Symbol * Symbol) nat) (dropout : Q)
    (random : nat → Q) (word : list Symbol) (drawn : nat)
  : option (list Symbol) * nat :=
  let '(pairs, drawn') :=
    get_pairs bpe_codes dropout random 0 (adjacent word) drawn in
  match pairs with
  | [] => (None, drawn')
  | c :: cs =>
      let bigram := cand_pair (min_cand c cs) in
      let positions := positions_of bigram pairs in
      (Some (merge_positions word (fst bigram +:+ snd bigram) positions 0 []),
       drawn')
  end.

(** [while len(word) > 1: ...].  The loop is not structurally recursive; it
    runs on [fuel], and [merge_loop_enough_fuel] shows that [length word]
    iterations always suffice. *)
Fixpoint merge_loop (fuel : nat) (bpe_codes : gmap (Symbol * Symbol) nat)
    (dropout : Q) (random : nat → Q) (word : list Symbol) (drawn : nat)
  : option (list Symbol * nat) :=
  if length word <=? 1 then Some (word, drawn)
  else
    match fuel with
    | 0 => None
    | S fuel' =>
        match merge_pass bpe_codes dropout random word drawn with
        | (None, drawn') => Some (word, drawn')
        | (Some new_word, drawn') =>
            merge_loop fuel' bpe_codes dropout random new_word drawn'
        end
    end.

(** ** Vocabulary closure *)

(** [if vocab:] is false for [None] and for an empty collection. *)
Definition vocab_given (vocab : option (gset string)) : option (gset string) :=
  match vocab with
  | Some v => if decide (v = ∅) then None else Some v
  | None => None
  end.

(** [recursive_split].  The generator is modelled by the list of what it
    yields; [depth] is the number of nested calls the interpreter still
    allows, and running out of it is [RecursionError]. *)
Fixpoint recursive_split (depth : nat) (segment : Symbol)
    (bpe_codes : gmap string (Symbol * Symbol)) (vocab : gset string)
    (separator : string) (final : bool) : result (list Symbol) :=
  match depth with
  | 0 => Raise RecursionError
  | S depth' =>
      match bpe_codes !! (if final then segment +:+ END_MARKER else segment) with
      | None => Ok [segment]
      | Some (lft, rgt0) =>
          let rgt := if final then PyStr.drop_end 4 rgt0 else rgt0 in
          match
            (if decide (lft +:+ separator ∈ vocab) then Ok [lft]
             else recursive_split depth' lft bpe_codes vocab separator false)
          with
          | Raise e => Raise e
          | Ok ls =>
              match
                (if (if final then bool_decide (rgt ∈ vocab)
                     else bool_decide (rgt +:+ separator ∈ vocab))
                 then Ok [rgt]
                 else recursive_split depth' rgt bpe_codes vocab separator
                        final)
              with
              | Raise e => Raise e
              | Ok rs => Ok (ls ++ rs)
              end
          end
      end
  end.

(** The [for segment in orig[:-1]] loop of [check_vocab_and_split]. *)
Fixpoint split_nonfinal (depth : nat) (segments : list Symbol)
    (bpe_codes : gmap string (Symbol * Symbol)) (vocab : gset string)
    (separator : string) : result (list Symbol) :=
  match segments with
  | [] => Ok []
  | segment :: rest =>
      match
        (if decide (segment +:+ separator ∈ vocab) then Ok [segment]
         else recursive_split depth segment bpe_codes vocab separator false)
      with
      | Raise e => Raise e
      | Ok out =>
          match split_nonfinal depth rest bpe_codes vocab separator with
          | Raise e => Raise e
          | Ok out' => Ok (out ++ out')
          end
      end
  end.

Definition check_vocab_and_split (depth : nat) (orig : list Symbol)
    (bpe_codes : gmap string (Symbol * Symbol)) (vocab : gset string)
    (separator : string) : result (list Symbol) :=
  match split_nonfinal depth (removelast orig) bpe_codes vocab separator with
  | Raise e => Raise e
  | Ok out =>
      match last orig with
      | None => Raise IndexError
      | Some segment =>
          if decide (segment ∈ vocab) then Ok (out ++ [segment])
          else
            match recursive_split depth segment bpe_codes vocab separator true
            with
            | Raise e => Raise e
            | Ok out' => Ok (out ++ out')
            end
      end
  end.

(** ** [encode] *)

(** The initial symbol sequence, by version of the merge table:
    [list(orig) + ['</w>']] for 0.1, [list(orig[:-1]) + [orig[-1] + '</w>']]
    for 0.2 (where [orig[-1]] fails on the empty word). *)
Definition initial_word (version : list Z) (orig : string)
  : result (list Symbol) :=
  if decide (version = [0; 1]%Z) then Ok (PyStr.chars orig ++ [END_MARKER])
  else if decide (version = [0; 2]%Z) then
    match orig with
    | "" => Raise IndexError
    | _ => Ok (PyStr.chars (PyStr.drop_end 1 orig)
               ++ [PyStr.take_end 1 orig +:+ END_MARKER])
    end
  else Raise NotImplementedError.

(** "don't print end-of-word symbols" *)
Definition strip_end_marker (word : list Symbol) : result (list Symbol) :=
  match last word with
  | None => Raise IndexError
  | Some l =>
      if String.eqb l END_MARKER then Ok (removelast word)
      else if PyStr.endswith END_MARKER l
           then Ok (removelast word ++ [PyStr.drop_end 4 l])
           else Ok word
  end.

Definition regex_matches (glossaries_regex : option (string → bool))
    (orig : string) : bool :=
  match glossaries_regex with
  | Some re => re orig
  | None => false
  end.

(** "Encode word based on list of BPE merge operations, which are applied
    consecutively."  The [cache] argument of the source is [st_cache]; the
    steps are those of the source, in its order: cache hit, whole-word
    glossary match, single character, initial symbols by version, merge
    loop, removal of the end marker, vocabulary closure, cache write. *)
Definition encode (orig : string) (bpe_codes : gmap (Symbol * Symbol) nat)
    (bpe_codes_reverse : gmap string (Symbol * Symbol))
    (vocab : option (gset string)) (separator : string) (version : list Z)
    (glossaries_regex : option (string → bool)) (dropout : Q) : M pyseq :=
  fun st =>
  match (if no_dropout dropout then st_cache st !! orig else None) with
  | Some hit => (Ok hit, st)
  | None =>
  if regex_matches glossaries_regex orig
  then (Ok (PTuple [orig]),
        set_cache (<[orig := PTuple [orig]]> (st_cache st)) st)
  else if String.length orig =? 1 then (Ok (PStr orig), st)
  else
  match initial_word version orig with
  | Raise e => (Raise e, st)
  | Ok word =>
  match merge_loop (length word) bpe_codes dropout (st_random st) word
          (st_drawn st) with
  | None => (Raise LoopFuel, st)
  | Some (word, drawn) =>
  let st := set_drawn drawn st in
  match strip_end_marker word with
  | Raise e => (Raise e, st)
  | Ok word =>
  match
    match vocab_given vocab with
    | Some v =>
        match check_vocab_and_split (st_recursion_limit st) word
                bpe_codes_reverse v separator with
        | Ok out => Ok (PList out)
        | Raise e => Raise e
        end
    | None => Ok (PTuple word)
    end
  with
  | Raise e => (Raise e, st)
  | Ok word => (Ok word, set_cache (<[orig := word]> (st_cache st)) st)
  end end end end end.

(** ** [isolate_glossary] *)

Definition nonempty (s : string) : bool := negb (String.eqb s "").

Definition isolate_glossary (word glossary : string) : list string :=
  if Re.match_anchored glossary word || negb (Re.search glossary word)
  then [word]
  else
    let segments := Re.split_group glossary word in
    let ending := default "" (last segments) in
    let segments := List.filter nonempty (removelast segments) in
    if nonempty ending
    then segments ++ [PyStr.strip PyStr.crlfsp ending]
    else segments.

(** ** The class [BPE] *)

(** [dict(l)] with the iteration order of Python: a key keeps the place of
    its first insertion and takes the value of its last. *)
Fixpoint dict_set {K V} `{EqDecision K} (k : K) (v : V) (d : list (K * V))
  : list (K * V) :=
  match d with
  | [] => [(k, v)]
  | (k', v') :: d' =>
      if decide (k = k') then (k, v) :: d' else (k', v') :: dict_set k v d'
  end.

Definition dict {K V} `{EqDecision K} (l : list (K * V)) : list (K * V) :=
  fold_left (fun d kv => dict_set (fst kv) (snd kv) d) l [].

Definition enumerate {A} (l : list A) : list (nat * A) :=
  combine (seq 0 (length l)) l.

Module BPE.

Record t : Type := mk {
  version : list Z;
  bpe_codes : gmap (Symbol * Symbol) nat;
  bpe_codes_reverse : gmap string (Symbol * Symbol);
  separator : string;
  vocab : option (gset string);
  glossaries : list string;
  glossaries_regex : option (string → bool)
}.

(** [codes.readline()]: up to and including the first newline. *)
Fixpoint readline (s : string) : string * string :=
  match s with
  | "" => ("", "")
  | String c s' =>
      if Ascii.eqb c PyStr.LF then (PyStr.char c, s')
      else let '(l, r) := readline s' in (String c l, r)
  end.

(** Membership in [(\.0+)*], read by a three-state automaton:
    0 before a group, 1 after its dot, 2 inside its zeros. *)
Fixpoint zero_groups (q : nat) (s : string) : bool :=
  match s with
  | "" => match q with 1 => false | _ => true end
  | String c s' =>
      match q with
      | 0 => Ascii.eqb c "."%char && zero_groups 1 s'
      | 1 => Ascii.eqb c "0"%char && zero_groups 2 s'
      | _ => (Ascii.eqb c "0"%char && zero_groups 2 s')
             || (Ascii.eqb c "."%char && zero_groups 1 s')
      end
  end.

(** [re.sub(r'(\.0+)*$', '', s)] on a token without newline: the longest
    suffix made of groups [.0], [.00], ... is removed. *)
Fixpoint sub_zero_groups (s : string) : string :=
  if zero_groups 0 s then ""
  else match s with
       | "" => ""
       | String c s' => String c (sub_zero_groups s')
       end.

(** [tuple([int(x) for x in re.sub(...).split(".")])] on
    [firstline.split()[-1]]. *)
Definition parse_version (firstline : string) : result (list Z) :=
  match last (PyStr.split_ws firstline) with
  | None => Raise IndexError
  | Some tok =>
      match mapM PyStr.int (PyStr.split "."%char (sub_zero_groups tok)) with
      | Some v => Ok v
      | None => Raise ValueError
      end
  end.

(** The version check at the head of [__init__]: the version, the line
    offset and the text that [codes.read()] then returns. *)
Definition read_header (codes : string) : result (list Z * nat * string) :=
  let '(firstline, rest) := readline codes in
  if PyStr.startswith "#version:" firstline then
    match parse_version firstline with
    | Ok v => Ok (v, 2, rest)
    | Raise e => Raise e
    end
  else Ok ([0; 1]%Z, 1, codes).

Definition considered (merges : Z) (n : nat) : bool :=
  (Z.of_nat n <? merges)%Z || (merges =? -1)%Z.

(** [[tuple(item.strip('\r\n ').split(' ')) for (n, item) in
     enumerate(codes.read().rstrip('\n').split('\n'))
     if (n < merges or merges == -1)]] *)
Definition read_codes (body : string) (merges : Z) : list (list string) :=
  map (fun ni => PyStr.split PyStr.SP (PyStr.strip PyStr.crlfsp (snd ni)))
    (List.filter (fun ni => considered merges (fst ni))
       (enumerate (PyStr.split PyStr.LF (PyStr.rstrip PyStr.is_lf body)))).

(** The two [sys.stderr.write] calls that precede [sys.exit(1)]. *)
Definition invalid_line (lineno : nat) (item : list string) : string :=
  "Error: invalid line " +:+ PyStr.of_nat lineno
  +:+ " in BPE codes file: " +:+ PyStr.join " " item
  +:+ PyStr.char PyStr.LF
  +:+ "The line should exist of exactly two subword units, separated by whitespace"
  +:+ PyStr.char PyStr.LF.

(** The validation loop; the items that pass are pairs. *)
Fixpoint check_codes (offset i : nat) (items : list (list string))
  : result (list (Symbol * Symbol)) :=
  match items with
  | [] => Ok []
  | item :: rest =>
      match item with
      | [a; b] =>
          match check_codes offset (S i) rest with
          | Ok ps => Ok ((a, b) :: ps)
          | Raise e => Raise e
          end
      | _ => Raise (SystemExit 1 (invalid_line (i + offset) item))
      end
  end.

(** [dict([(code, i) for (i, code) in reversed(list(enumerate(codes)))])] *)
Definition codes_dict (codes : list (Symbol * Symbol))
  : list (Symbol * Symbol * nat) :=
  dict (map (fun ic => (snd ic, fst ic)) (rev (enumerate codes))).

(** [dict([(pair[0] + pair[1], pair) for pair, i in bpe_codes.items()])] *)
Definition reverse_dict (d : list (Symbol * Symbol * nat))
  : list (string * (Symbol * Symbol)) :=
  dict (map (fun pi => (fst (fst pi) +:+ snd (fst pi), fst pi)) d).

(** [truthy] for the [glossaries] argument: [None] and [[]] are false. *)
Definition given (glossaries : option (list string)) : list string :=
  default [] glossaries.

(** [BPE.__init__]; the new object starts with an empty cache, see
    [fresh]. *)
Definition __init__ (codes : string) (merges : Z) (separator : string)
    (vocab : option (gset string)) (glossaries : option (list string))
  : result t :=
  match read_header codes with
  | Raise e => Raise e
  | Ok (version, offset, body) =>
      match check_codes offset 0 (read_codes body merges) with
      | Raise e => Raise e
      | Ok pairs =>
          let d := codes_dict pairs in
          Ok (mk version (list_to_map d) (list_to_map (reverse_dict d))
                separator vocab (given glossaries)
                (match given glossaries with
                 | [] => None
                 | gs => Some (Re.match_alternatives gs)
                 end))
      end
  end.

(** The interpreter state right after construction: [self.cache = {}]. *)
Definition fresh (random : nat → Q) (limit : nat) : State :=
  mkState ∅ random 0 limit.

Definition _isolate_glossaries (self : t) (word : string) : list string :=
  fold_left
    (fun word_segments gloss =>
       flat_map (fun segment => isolate_glossary segment gloss)
         word_segments)
    (glossaries self) [word].

Definition encode_word (self : t) (segment : string) (dropout : Q)
  : M pyseq :=
  encode segment (bpe_codes self) (bpe_codes_reverse self) (vocab self)
    (separator self) (version self) (glossaries_regex self) dropout.

(** [[out for segment in ... for out in encode(segment, ...)]] *)
Fixpoint encode_segments (self : t) (segments : list string) (dropout : Q)
  : M (list Symbol) :=
  match segments with
  | [] => mret []
  | segment :: rest =>
      out ← encode_word self segment dropout;
      outs ← encode_segments self rest dropout;
      mret (items out ++ outs)
  end.

Fixpoint segment_tokens (self : t) (tokens : list string) (dropout : Q)
  : M (list string) :=
  match tokens with
  | [] => mret []
  | word :: rest =>
      if nonempty word then
        new_word ←
          encode_segments self (_isolate_glossaries self word) dropout;
        match last new_word with
        | None => raise IndexError
        | Some final =>
            output ← segment_tokens self rest dropout;
            mret (map (fun item => item +:+ separator self)
                    (removelast new_word) ++ final :: output)
        end
      else segment_tokens self rest dropout
  end.

Definition segment (self : t) (sentence : string) (dropout : Q) : M string :=
  segments ←
    segment_tokens self
      (PyStr.split PyStr.SP (PyStr.strip PyStr.crlfsp sentence)) dropout;
  mret (PyStr.join " " segments).

Definition process_line (self : t) (line : string) (dropout : Q) : M string :=
  let leading_whitespace :=
    String.length line - String.length (PyStr.lstrip PyStr.crlfsp line) in
  let out :=
    if leading_whitespace =? 0 then ""
    else PyStr.take_start leading_whitespace line in
  seg ← segment self line dropout;
  let out := out +:+ seg in
  let trailing_whitespace :=
    String.length line - String.length (PyStr.rstrip PyStr.crlfsp line) in
  mret (if negb (trailing_whitespace =? 0)
           && negb (trailing_whitespace =? String.length line)
        then out +:+ PyStr.take_end trailing_whitespace line
        else out).

End BPE.

(** * Properties *)

(** ** Auxiliary notions used in the statements *)

(** Every character of [s] satisfies [p]. *)
Fixpoint all_chars (p : ascii → bool) (s : string) : bool :=
  match s with
  | "" => true
  | String c s' => p c && all_chars p s'
  end.



(** [''.join(l)] *)
Definition flatten (l : list string) : string := foldr String.append "" l.

(** The text of the end marker does not occur in [s]. *)
Definition marker_free (s : string) : Prop :=
  PyStr.contains END_MARKER s = false.

(** What one merge pass does to a symbol sequence: some disjoint adjacent
    pairs are replaced by their concatenation. *)
Inductive regroup : list Symbol → list Symbol → Prop :=
| regroup_nil : regroup [] []
| regroup_keep x w' w : regroup w' w → regroup (x :: w') (x :: w)
| regroup_merge a b w' w : regroup w' w → regroup ((a +:+ b) :: w') (a :: b :: w).

(** The loop invariant of [encode]: the symbols spell the word, and the last
    symbol carries the end marker. *)
Definition end_marked (orig : string) (word : list Symbol) : Prop :=
  ∃ front x, word = front ++ [x +:+ END_MARKER] ∧ flatten front +:+ x = orig.

(** A positions list fit for [merge_positions]: every position holds the
    two symbols whose concatenation is [bigram]. *)
Definition positions_ok (word : list Symbol) (bigram : Symbol)
    (positions : list nat) : Prop :=
  ∀ j, j ∈ positions →
       ∃ a b, word !! j = Some a ∧ word !! S j = Some b ∧ bigram = a +:+ b.

(** A reverse index made of real merges: every key is the concatenation of
    its pair, and the right part is not empty. *)
Definition rev_wf (rev : gmap string (Symbol * Symbol)) : Prop :=
  ∀ k l r, rev !! k = Some (l, r) → k = l +:+ r ∧ r ≠ "".

(** A reverse index on which the closure is well-founded: both parts of
    every merge are non-empty, and a merge that produces a symbol ending
    with the end marker has a right part ending with the end marker. *)
Definition rev_marked (rev : gmap string (Symbol * Symbol)) : Prop :=
  ∀ k l r, rev !! k = Some (l, r) →
           k = l +:+ r ∧ l ≠ "" ∧ r ≠ ""
           ∧ (PyStr.endswith END_MARKER k = true →
              PyStr.endswith END_MARKER r = true).

(** Cached values of marker-free words are marker-free. *)
Definition cache_clean (cache : gmap string pyseq) : Prop :=
  ∀ w r, cache !! w = Some r → marker_free w → Forall marker_free (items r).

(** [s[-1]] when there is one. *)
Fixpoint last_char (s : string) : option ascii :=
  match s with
  | "" => None
  | String c "" => Some c
  | String _ s' => last_char s'
  end.

(** Cached values spell their key. *)
Definition cache_spells (cache : gmap string pyseq) : Prop :=
  ∀ w r, cache !! w = Some r → flatten (items r) = w.

(** A segmentation of [w] with at least one subword, no empty subword and
    no more subwords than [w] has characters. *)
Definition solid (w : string) (l : list Symbol) : Prop :=
  l ≠ [] ∧ Forall (λ s, s ≠ "") l ∧ length l ≤ String.length w.

(** Cached values of non-empty words are solid. *)
Definition cache_solid (cache : gmap string pyseq) : Prop :=
  ∀ w r, cache !! w = Some r → w ≠ "" → solid w (items r).

(** A piece the closure may emit before the end of a word: listed in the
    vocabulary with the separator, or not the result of any merge. *)
Definition inner_piece_ok (rev : gmap string (Symbol * Symbol))
    (vocab : gset string) (sep : string) (x : string) : Prop :=
  x +:+ sep ∈ vocab ∨ rev !! x = None.

(** A piece the closure may emit at the end of a word: listed in the
    vocabulary as it is, or not the result of any word-final merge. *)
Definition final_piece_ok (rev : gmap string (Symbol * Symbol))
    (vocab : gset string) (x : string) : Prop :=
  x ∈ vocab ∨ rev !! (x +:+ END_MARKER) = None.


(** Inputs used in the worked examples. *)
Definition NL : string := PyStr.char PyStr.LF.

Definition idle : State := BPE.fresh (fun _ => 0%Q) 1000.

(** Merges that rebuild the text "</w>" from its characters. *)
Definition marker_codes : gmap (Symbol * Symbol) nat :=
  {[ ("w", ">") := 0; ("/", "w>") := 1; ("<", "/w>") := 2 ]}.

Definition abc_codes : gmap (Symbol * Symbol) nat :=
  {[ ("a", "b") := 0; ("ab", "c</w>") := 1 ]}.
Definition abc_reverse : gmap string (Symbol * Symbol) :=
  {[ "ab" := ("a", "b"); "abc</w>" := ("ab", "c</w>") ]}.

(** A merge table with two merges whose right parts are proper suffixes of
    the end marker, and the dictionaries [__init__] builds from it. *)
Definition loop_table : string := "a</ w>" +:+ NL +:+ "< /w>" +:+ NL.
Definition loop_codes : gmap (Symbol * Symbol) nat :=
  {[ ("a</", "w>") := 0; ("<", "/w>") := 1 ]}.
Definition loop_reverse : gmap string (Symbol * Symbol) :=
  {[ "a</w>" := ("a</", "w>"); "</w>" := ("<", "/w>") ]}.
Definition loop_vocab : gset string := {[ "zzz" ]}.

(** Case analysis on the condition of the first [if] of the goal, or of a
    hypothesis. *)
Ltac case_if :=
  match goal with
  | |- context [if ?c then _ else _] => destruct c
  end.

Ltac case_if_in H :=
  match type of H with
  | context [if ?c then _ else _] => destruct c
  end.

(** ** Strings *)

Lemma str_app_nil_l (s : string) : "" +:+ s = s.
Proof. reflexivity. Qed.

Lemma str_app_cons (c : ascii) (s t : string) :
  String c s +:+ t = String c (s +:+ t).
Proof. reflexivity. Qed.

Lemma str_app_nil_r (s : string) : s +:+ "" = s.
Proof. induction s as [|c s IH]; [done|]. by rewrite str_app_cons, IH. Qed.

Lemma str_app_assoc (s t u : string) : (s +:+ t) +:+ u = s +:+ (t +:+ u).
Proof. induction s as [|c s IH]; [done|]. by rewrite !str_app_cons, IH. Qed.

Lemma str_length_app (s t : string) :
  String.length (s +:+ t) = String.length s + String.length t.
Proof. induction s as [|c s IH]; [done|]. rewrite str_app_cons. simpl. by rewrite IH. Qed.

Lemma substring_all (s : string) : String.substring 0 (String.length s) s = s.
Proof. induction s as [|c s IH]; [done|]. simpl. by rewrite IH. Qed.

Lemma lstrip_all (p : ascii → bool) (s : string) :
  all_chars p s = true → PyStr.lstrip p s = "".
Proof.
  induction s as [|c s IH]; [done|]. simpl.
  intros [Hc Hs]%andb_prop. rewrite Hc. auto.
Qed.

Lemma rstrip_all (p : ascii → bool) (s : string) :
  all_chars p s = true → PyStr.rstrip p s = "".
Proof.
  induction s as [|c s IH]; [done|]. simpl.
  intros [Hc Hs]%andb_prop. by rewrite IH, Hc.
Qed.

Lemma strip_all (p : ascii → bool) (s : string) :
  all_chars p s = true → PyStr.strip p s = "".
Proof. intros H. unfold PyStr.strip. by rewrite rstrip_all. Qed.

(** ** The merge pass on overlapping occurrences *)



(** ** The paths through [encode] *)


Lemma get_pairs_no_dropout bpe_codes dropout random i ps drawn :
  no_dropout dropout = true →
  snd (get_pairs bpe_codes dropout random i ps drawn) = drawn.
Proof.
  intros Hd. revert i. induction ps as [|p ps IH]; intros i; [done|].
  simpl. rewrite Hd. specialize (IH (S i)).
  destruct (get_pairs bpe_codes dropout random (S i) ps drawn) as [rest d2].
  simpl in IH. subst d2. by destruct (bpe_codes !! p).
Qed.

Lemma merge_pass_no_dropout bpe_codes dropout random word drawn :
  no_dropout dropout = true →
  snd (merge_pass bpe_codes dropout random word drawn) = drawn.
Proof.
  intros Hd. unfold merge_pass.
  pose proof (get_pairs_no_dropout bpe_codes dropout random 0 (adjacent word)
                drawn Hd) as H.
  destruct (get_pairs bpe_codes dropout random 0 (adjacent word) drawn)
    as [pairs d]. simpl in H. subst d. by destruct pairs.
Qed.

Lemma merge_loop_no_dropout fuel bpe_codes dropout random word drawn w' d' :
  no_dropout dropout = true →
  merge_loop fuel bpe_codes dropout random word drawn = Some (w', d') →
  d' = drawn.
Proof.
  intros Hd. revert word. induction fuel as [|fuel IH]; intros word; simpl.
  - destruct (length word <=? 1); congruence.
  - destruct (length word <=? 1); [congruence|].
    pose proof (merge_pass_no_dropout bpe_codes dropout random word drawn Hd)
      as H.
    destruct (merge_pass bpe_codes dropout random word drawn) as [[nw|] d].
    + simpl in H. subst d. apply IH.
    + simpl in H. congruence.
Qed.



(** ** Single characters *)

Lemma chars_single (s : string) : String.length s = 1 → PyStr.chars s = [s].
Proof. destruct s as [|c [|c' s]]; by simpl. Qed.





(** ** Determinism without dropout *)




(** ** The cache under dropout *)

(** Under dropout the cache is never read: the value returned by [encode]
    is the same whatever the cache holds. *)
Lemma encode_dropout_ignores_cache orig codes rev vocab sep version re dropout
    st (c1 c2 : gmap string pyseq) :
  no_dropout dropout = false →
  fst (encode orig codes rev vocab sep version re dropout (set_cache c1 st))
  = fst (encode orig codes rev vocab sep version re dropout (set_cache c2 st)).
Proof.
  intros Hd. unfold encode. rewrite Hd. simpl.
  destruct (regex_matches re orig); [done|].
  destruct (String.length orig =? 1); [done|].
  destruct (initial_word version orig); [|done].
  destruct (merge_loop _ _ _ _ _ _) as [[word' drawn]|]; [|done].
  destruct (strip_end_marker word'); [|done].
  simpl. destruct (vocab_given vocab); [|done].
  by destruct (check_vocab_and_split _ _ _ _ _).
Qed.

(** C1, the behaviour of the code. With dropout 1/2 and every draw at
    1/10 the only candidate merge of "ab" is suppressed; the call returns
    [("a", "b")] and stores it in the cache, which was empty before. A later
    call without dropout is then answered from the cache with that
    segmentation, where a fresh tokenizer returns [("ab",)]. *)
Theorem encode_dropout_writes_cache :
  let codes : gmap (Symbol * Symbol) nat := {[ ("a", "b") := 0 ]} in
  let st := BPE.fresh (fun _ => 1 # 10) 1000 in
  let '(r, st') := encode "ab" codes ∅ None "@@" [0; 1]%Z None (1 # 2) st in
  st_cache st !! "ab" = None
  ∧ r = Ok (PTuple ["a"; "b"])
  ∧ st_cache st' !! "ab" = Some (PTuple ["a"; "b"])
  ∧ fst (encode "ab" codes ∅ None "@@" [0; 1]%Z None 0 st')
    = Ok (PTuple ["a"; "b"])
  ∧ fst (encode "ab" codes ∅ None "@@" [0; 1]%Z None 0 st)
    = Ok (PTuple ["ab"]).
Proof. vm_compute. repeat split; reflexivity. Qed.

(** ** Whitespace-only lines *)

(** C10. A line made only of spaces, carriage returns and newlines is
    returned unchanged by [process_line]: it is copied as leading
    whitespace ([leading_whitespace] is the length of the line), [segment]
    contributes the empty string, and since [trailing_whitespace] is the
    length of the line too, the guard [trailing_whitespace != len(line)]
    keeps it from being appended again. Neither the cache nor the random
    stream is touched. *)
Theorem process_line_whitespace (self : BPE.t) (line : string) (dropout : Q)
    (st : State) :
  all_chars PyStr.crlfsp line = true →
  BPE.process_line self line dropout st = (Ok line, st)
  ∧ BPE.segment self line dropout st = (Ok "", st)
  ∧ String.length line - String.length (PyStr.lstrip PyStr.crlfsp line)
    = String.length line
  ∧ String.length line - String.length (PyStr.rstrip PyStr.crlfsp line)
    = String.length line.
Proof.
  intros Hws.
  assert (BPE.segment self line dropout st = (Ok "", st)) as Hseg.
  { unfold BPE.segment. by rewrite (strip_all _ _ Hws). }
  split; [|split; [done|]].
  - unfold BPE.process_line, mbind, M_bind, bind. rewrite Hseg.
    rewrite (lstrip_all _ _ Hws), (rstrip_all _ _ Hws).
    simpl. rewrite Nat.sub_0_r, Nat.eqb_refl. simpl.
    unfold mret, M_ret, ret. rewrite str_app_nil_r. unfold PyStr.take_start.
    destruct (String.length line =? 0) eqn:Hlen.
    + apply Nat.eqb_eq in Hlen. by destruct line.
    + by rewrite substring_all.
  - rewrite (lstrip_all _ _ Hws), (rstrip_all _ _ Hws). simpl. lia.
Qed.

Lemma process_line_whitespace_witness :
  all_chars PyStr.crlfsp (" " +:+ PyStr.char PyStr.CR +:+ PyStr.char PyStr.LF)
    = true
  ∧ BPE.process_line
      (BPE.mk [0; 1]%Z {[ ("a", "b") := 0 ]} ∅ "@@" None [] None)
      (" " +:+ PyStr.char PyStr.CR +:+ PyStr.char PyStr.LF) 0
      (BPE.fresh (fun _ => 0%Q) 1000)
    = (Ok (" " +:+ PyStr.char PyStr.CR +:+ PyStr.char PyStr.LF),
       BPE.fresh (fun _ => 0%Q) 1000).
Proof.
  split; [reflexivity|].
  apply process_line_whitespace. reflexivity.
Defined.

(** ** Glossary isolation *)

Example isolate_glossary_docstring :
  isolate_glossary "1934USABUSA" "USA" = ["1934"; "USA"; "B"; "USA"].
Proof. reflexivity. Qed.

(** C5, the behaviour of the code. The test [ending != ''] is made before
    the ending is stripped: a trailing segment that consists of a carriage
    return (or of spaces) is stripped to the empty string and still
    appended, so the returned list ends with an empty segment. *)
Theorem isolate_glossary_empty_ending :
  isolate_glossary ("USA" +:+ PyStr.char PyStr.CR) "USA" = ["USA"; ""]
  ∧ isolate_glossary "USA " "USA" = ["USA"; ""]
  ∧ isolate_glossary "aUSA  " "USA" = ["a"; "USA"; ""].
Proof. repeat split; reflexivity. Qed.

(** ** The version of the merge table *)

(** The claim C2 as stated fails: a table whose header declares version 0.3
    is loaded without complaint, [encode] is then called with that version
    and answers for a single-character word, and a whole line of such words
    is segmented. *)
Lemma unsupported_version_accepted :
  ∃ bpe,
    BPE.__init__ ("#version: 0.3" +:+ NL +:+ "a b" +:+ NL) (-1) "@@" None None
      = Ok bpe
    ∧ BPE.version bpe = [0; 3]%Z
    ∧ fst (BPE.encode_word bpe "a" 0 (BPE.fresh (fun _ => 0%Q) 1000))
      = Ok (PStr "a")
    ∧ fst (BPE.process_line bpe ("a b" +:+ NL) 0
             (BPE.fresh (fun _ => 0%Q) 1000))
      = Ok ("a b" +:+ NL).
Proof.
  eexists. split; [vm_compute; reflexivity|].
  repeat split; vm_compute; reflexivity.
Qed.

(** C2, as the code has it. [__init__] does not inspect the version it
    parsed: a table with a well-formed header and well-formed merge lines
    is constructed whatever the version. The unsupported version is
    rejected by [encode], with [NotImplementedError], on every word that is
    not answered from the cache, is not glossary-protected and is not a
    single character; this happens before any merge and leaves the state,
    cache included, as it was. *)
Theorem unsupported_version_raised_by_encode codes merges sep vocab glossaries
    v offset body pairs orig dropout st :
  BPE.read_header codes = Ok (v, offset, body) →
  BPE.check_codes offset 0 (BPE.read_codes body merges) = Ok pairs →
  v ≠ [0; 1]%Z → v ≠ [0; 2]%Z →
  ∃ bpe,
    BPE.__init__ codes merges sep vocab glossaries = Ok bpe
    ∧ BPE.version bpe = v
    ∧ (no_dropout dropout = false ∨ st_cache st !! orig = None →
       regex_matches (BPE.glossaries_regex bpe) orig = false →
       String.length orig ≠ 1 →
       BPE.encode_word bpe orig dropout st = (Raise NotImplementedError, st)).
Proof.
  intros Hhead Hcodes Hv1 Hv2. unfold BPE.__init__.
  rewrite Hhead, Hcodes. eexists. split; [reflexivity|].
  split; [reflexivity|]. simpl.
  intros Hmiss Hre Hlen. unfold BPE.encode_word, encode. simpl.
  assert ((if no_dropout dropout then st_cache st !! orig else None) = None)
    as ->.
  { destruct Hmiss as [->| ->]; [done|]. by destruct (no_dropout dropout). }
  rewrite Hre. apply Nat.eqb_neq in Hlen. rewrite Hlen.
  unfold initial_word. by rewrite !decide_False.
Qed.

Lemma unsupported_version_raised_by_encode_witness :
  BPE.read_header ("#version: 0.3" +:+ NL +:+ "a b" +:+ NL)
    = Ok ([0; 3]%Z, 2, "a b" +:+ NL)
  ∧ BPE.check_codes 2 0 (BPE.read_codes ("a b" +:+ NL) (-1)) = Ok [("a", "b")]
  ∧ [0; 3]%Z ≠ [0; 1]%Z ∧ [0; 3]%Z ≠ [0; 2]%Z
  ∧ ∃ bpe,
      BPE.__init__ ("#version: 0.3" +:+ NL +:+ "a b" +:+ NL) (-1) "@@" None None
        = Ok bpe
      ∧ BPE.version bpe = [0; 3]%Z
      ∧ BPE.encode_word bpe "ab" 0 (BPE.fresh (fun _ => 0%Q) 1000)
        = (Raise NotImplementedError, BPE.fresh (fun _ => 0%Q) 1000).
Proof.
  split; [reflexivity|]. split; [reflexivity|].
  split; [discriminate|]. split; [discriminate|].
  destruct (unsupported_version_raised_by_encode
              ("#version: 0.3" +:+ NL +:+ "a b" +:+ NL) (-1) "@@" None None
              [0; 3]%Z 2 ("a b" +:+ NL) [("a", "b")] "ab" 0
              (BPE.fresh (fun _ => 0%Q) 1000))
    as (bpe & Hinit & Hver & Henc);
    [reflexivity | reflexivity | discriminate | discriminate |].
  exists bpe. split; [exact Hinit|]. split; [exact Hver|].
  apply Henc; [right; reflexivity | | discriminate].
  vm_compute in Hinit. injection Hinit as <-. reflexivity.
Defined.

(** ** Malformed lines of the merge table *)

Lemma split_nonempty (sep : ascii) (s : string) : PyStr.split sep s ≠ [].
Proof.
  induction s as [|c s IH]; [done|]. simpl.
  destruct (Ascii.eqb c sep); [done|]. by destruct (PyStr.split sep s).
Qed.










(** ** One merge pass regroups the symbols and shortens the sequence *)

Lemma regroup_refl w : regroup w w.
Proof. induction w; constructor; auto. Qed.

Lemma regroup_app a b c d : regroup a b → regroup c d → regroup (a ++ c) (b ++ d).
Proof. induction 1; simpl; intros; try constructor; auto. Qed.

Lemma regroup_pair (a b : Symbol) : regroup [a +:+ b] [a; b].
Proof. repeat constructor. Qed.

Lemma take_two_more (word : list Symbol) i j a b :
  i ≤ j → word !! j = Some a → word !! S j = Some b →
  take (j + 2) word = take i word ++ slice word i j ++ [a; b].
Proof.
  intros Hij Ha Hb. unfold slice.
  rewrite (assoc_L (++)), take_take_drop.
  replace (i + (j - i)) with j by lia.
  replace (j + 2) with (S (S j)) by lia.
  rewrite (take_S_r _ (S j) b Hb), (take_S_r _ j a Ha).
  by rewrite <-(assoc_L (++)).
Qed.

Lemma merge_positions_regroup word bigram positions i new_word :
  positions_ok word bigram positions →
  i ≤ length word →
  regroup new_word (take i word) →
  regroup (merge_positions word bigram positions i new_word) word.
Proof.
  revert i new_word.
  induction positions as [|j rest IH]; intros i new_word Hok Hi Hre; simpl.
  - rewrite <-(take_drop i word) at 2.
    apply regroup_app; [done|apply regroup_refl].
  - assert (positions_ok word bigram rest) as Hrest.
    { intros k Hk. apply Hok. by right. }
    destruct (j <? i) eqn:Hji; [by apply IH|].
    apply Nat.ltb_ge in Hji.
    destruct (Hok j) as (a & b & Ha & Hb & ->); [by left|].
    apply IH; [done| |].
    + apply lookup_lt_Some in Hb. lia.
    + rewrite (take_two_more word i j a b Hji Ha Hb).
      apply regroup_app; [done|].
      apply regroup_app; [apply regroup_refl|apply regroup_pair].
Qed.

Lemma length_slice (word : list Symbol) i j :
  j ≤ length word → length (slice word i j) = j - i.
Proof. intros. unfold slice. rewrite length_take, length_drop. lia. Qed.

Lemma merge_positions_length word bigram positions i new_word :
  positions_ok word bigram positions →
  i ≤ length word →
  length (merge_positions word bigram positions i new_word)
  ≤ length new_word + (length word - i).
Proof.
  revert i new_word.
  induction positions as [|j rest IH]; intros i new_word Hok Hi; simpl.
  - rewrite length_app, length_drop. lia.
  - assert (positions_ok word bigram rest) as Hrest.
    { intros k Hk. apply Hok. by right. }
    destruct (j <? i) eqn:Hji; [by apply IH|].
    apply Nat.ltb_ge in Hji.
    destruct (Hok j) as (a & b & Ha & Hb & _); [by left|].
    apply lookup_lt_Some in Hb.
    etrans; [apply IH; [done|lia]|].
    rewrite !length_app, length_slice by lia. simpl. lia.
Qed.

Lemma merge_positions_shorter word bigram j rest :
  positions_ok word bigram (j :: rest) →
  length (merge_positions word bigram (j :: rest) 0 []) < length word.
Proof.
  intros Hok. simpl.
  destruct (Hok j) as (a & b & Ha & Hb & _); [by left|].
  apply lookup_lt_Some in Hb.
  eapply Nat.le_lt_trans.
  - apply merge_positions_length; [|lia]. intros k Hk. apply Hok. by right.
  - rewrite !length_app, length_slice by lia. simpl. lia.
Qed.

Lemma get_pairs_sound codes dropout random start ps drawn c :
  c ∈ fst (get_pairs codes dropout random start ps drawn) →
  ∃ k, cand_pos c = start + k ∧ ps !! k = Some (cand_pair c).
Proof.
  revert start drawn. induction ps as [|p ps IH]; intros start drawn; simpl.
  { intros H. by apply elem_of_nil in H. }
  destruct (if no_dropout dropout then _ else _) as [keep drawn1].
  specialize (IH (S start) drawn1).
  destruct (get_pairs codes dropout random (S start) ps drawn1) as [rest d2].
  simpl in IH.
  assert (c ∈ rest → ∃ k, cand_pos c = start + k ∧ (p :: ps) !! k = Some (cand_pair c))
    as Hrest.
  { intros (k & Hk & Hp)%IH. exists (S k). split; [lia|done]. }
  destruct (if keep then codes !! p else None) as [rank|]; simpl; [|done].
  intros [->|Hin]%elem_of_cons; [|by auto].
  exists 0. split; [unfold cand_pos; simpl; lia|done].
Qed.

Lemma adjacent_lookup (word : list Symbol) k a b :
  adjacent word !! k = Some (a, b) → word !! k = Some a ∧ word !! S k = Some b.
Proof.
  unfold adjacent, zip. intros (x & y & [= -> ->] & Hx & Hy)%lookup_zip_with_Some.
  by rewrite lookup_tail in Hy.
Qed.

Lemma min_cand_in c cs : min_cand c cs ∈ c :: cs.
Proof.
  unfold min_cand. revert c. induction cs as [|x cs IH]; intros c; simpl.
  - by left.
  - destruct (cand_ltb x c).
    + right. apply IH.
    + specialize (IH c). apply elem_of_cons in IH as [->|Hin].
      * by left.
      * right. by right.
Qed.

Lemma pair_eqb_eq p q : pair_eqb p q = true ↔ p = q.
Proof.
  destruct p as [a b], q as [a' b']. unfold pair_eqb. simpl.
  rewrite andb_true_iff, !String.eqb_eq.
  split; [by intros [-> ->]|by intros [= -> ->]].
Qed.

Lemma positions_of_ok (word : list Symbol) pairs bigram :
  (∀ c, c ∈ pairs → adjacent word !! cand_pos c = Some (cand_pair c)) →
  positions_ok word (fst bigram +:+ snd bigram) (positions_of bigram pairs).
Proof.
  intros Hpairs j Hj. unfold positions_of in Hj.
  apply list_elem_of_fmap in Hj as (c & -> & Hc).
  apply list_elem_of_In, filter_In in Hc as [Hc Heq].
  apply list_elem_of_In in Hc. apply pair_eqb_eq in Heq.
  specialize (Hpairs c Hc). rewrite Heq in Hpairs.
  destruct bigram as [a b]. apply adjacent_lookup in Hpairs as [Ha Hb].
  by exists a, b.
Qed.

Lemma positions_of_nonempty pairs c :
  c ∈ pairs → positions_of (cand_pair c) pairs ≠ [].
Proof.
  intros Hc Hnil. unfold positions_of in Hnil.
  apply fmap_nil_inv in Hnil.
  assert (In c (List.filter (λ c0, pair_eqb (cand_pair c0) (cand_pair c)) pairs))
    as Hin.
  { apply filter_In. split; [by apply list_elem_of_In|]. by apply pair_eqb_eq. }
  rewrite Hnil in Hin. done.
Qed.

(** A pass that does not [break] regroups the symbols and returns a
    strictly shorter sequence. *)
Lemma merge_pass_regroup codes dropout random word drawn new_word drawn' :
  merge_pass codes dropout random word drawn = (Some new_word, drawn') →
  regroup new_word word ∧ length new_word < length word.
Proof.
  unfold merge_pass.
  pose proof (λ c, get_pairs_sound codes dropout random 0 (adjacent word)
                     drawn c) as Hsound.
  destruct (get_pairs codes dropout random 0 (adjacent word) drawn)
    as [pairs d]. simpl in Hsound.
  destruct pairs as [|c cs]; [done|]. intros [= <- <-].
  pose proof (min_cand_in c cs) as Hmin.
  set (bigram := cand_pair (min_cand c cs)).
  assert (positions_ok word (fst bigram +:+ snd bigram)
            (positions_of bigram (c :: cs))) as Hok.
  { apply positions_of_ok. intros x Hx.
    destruct (Hsound x Hx) as (k & Hk & Hp). by rewrite Hk. }
  split.
  - apply merge_positions_regroup; [done|lia|constructor].
  - pose proof (positions_of_nonempty (c :: cs) _ Hmin) as Hne.
    fold bigram in Hne.
    destruct (positions_of bigram (c :: cs)) as [|j rest]; [done|].
    by apply merge_positions_shorter.
Qed.

(** [length word] iterations are enough for the [while] loop: the fuel of
    [merge_loop] never runs out in [encode]. *)
Lemma merge_loop_enough_fuel fuel codes dropout random word drawn :
  length word ≤ fuel →
  is_Some (merge_loop fuel codes dropout random word drawn).
Proof.
  revert word drawn. induction fuel as [|fuel IH]; intros word drawn Hlen;
    simpl.
  - destruct (length word <=? 1) eqn:H; [done|].
    apply Nat.leb_gt in H. lia.
  - destruct (length word <=? 1); [done|].
    destruct (merge_pass codes dropout random word drawn) as [[new_word|] d]
      eqn:Hpass; [|done].
    apply merge_pass_regroup in Hpass as [_ Hshort]. apply IH. lia.
Qed.

(** ** The end marker never reaches the output *)

Lemma regroup_nil_inv w' : regroup w' [] → w' = [].
Proof. by inversion 1. Qed.

Lemma regroup_last w' w :
  regroup w' w →
  ∀ front x, w = front ++ [x +:+ END_MARKER] →
  ∃ front' x', w' = front' ++ [x' +:+ END_MARKER]
               ∧ flatten front' +:+ x' = flatten front +:+ x.
Proof.
  induction 1 as [|y w' w Hre IH|a b w' w Hre IH]; intros front x Hw.
  - by destruct front.
  - destruct front as [|f front]; simpl in Hw.
    + injection Hw as -> ->. apply regroup_nil_inv in Hre as ->.
      by exists [], x.
    + injection Hw as -> ->.
      destruct (IH front x eq_refl) as (front' & x' & -> & Hx').
      exists (f :: front'), x'. split; [done|].
      simpl. by rewrite !str_app_assoc, Hx'.
  - destruct front as [|f [|g front]]; simpl in Hw.
    + done.
    + injection Hw as -> -> ->. apply regroup_nil_inv in Hre as ->.
      exists [], (f +:+ x). split.
      * simpl. by rewrite str_app_assoc.
      * simpl. by rewrite str_app_nil_r.
    + injection Hw as -> -> ->.
      destruct (IH front x eq_refl) as (front' & x' & -> & Hx').
      exists ((f +:+ g) :: front'), x'. split; [done|].
      simpl. by rewrite !str_app_assoc, Hx'.
Qed.

Lemma regroup_end_marked orig w' w :
  regroup w' w → end_marked orig w → end_marked orig w'.
Proof.
  intros Hre (front & x & Hw & Horig).
  destruct (regroup_last w' w Hre front x Hw) as (front' & x' & -> & Hx').
  exists front', x'. split; [done|]. by rewrite Hx'.
Qed.

Lemma merge_loop_end_marked fuel codes dropout random orig word drawn w' d' :
  end_marked orig word →
  merge_loop fuel codes dropout random word drawn = Some (w', d') →
  end_marked orig w'.
Proof.
  revert word drawn. induction fuel as [|fuel IH]; intros word drawn Hinv;
    simpl.
  - destruct (length word <=? 1); [|done]. by intros [= <- <-].
  - destruct (length word <=? 1); [by intros [= <- <-]|].
    destruct (merge_pass codes dropout random word drawn) as [[new_word|] d]
      eqn:Hpass; [|by intros [= <- <-]].
    apply merge_pass_regroup in Hpass as [Hre _].
    apply IH. by eapply regroup_end_marked.
Qed.

Lemma prefix_app_r (s a b : string) :
  String.prefix s a = true → String.prefix s (a +:+ b) = true.
Proof.
  revert a. induction s as [|c s IH]; intros a.
  - by destruct (a +:+ b).
  - destruct a as [|c' a]; [done|]. rewrite str_app_cons. simpl.
    destruct (ascii_dec c c'); [apply IH|done].
Qed.

Lemma prefix_nil_l (s : string) : String.prefix "" s = true.
Proof. by destruct s. Qed.

Lemma contains_app_l (sub a b : string) :
  PyStr.contains sub a = true → PyStr.contains sub (a +:+ b) = true.
Proof.
  induction a as [|c a IH]; cbn [PyStr.contains].
  - rewrite orb_false_r. destruct sub; [|done]. intros _.
    rewrite str_app_nil_l. destruct b; simpl; by rewrite ?prefix_nil_l.
  - intros [H|H]%orb_prop; rewrite str_app_cons; cbn [PyStr.contains].
    + apply (prefix_app_r _ _ b) in H. rewrite str_app_cons in H.
      by rewrite H.
    + rewrite (IH H). apply orb_true_r.
Qed.

Lemma contains_app_r (sub a b : string) :
  PyStr.contains sub b = true → PyStr.contains sub (a +:+ b) = true.
Proof.
  intros H. induction a as [|c a IH]; [done|].
  rewrite str_app_cons. cbn [PyStr.contains]. rewrite IH. apply orb_true_r.
Qed.

Lemma marker_free_app (a b : string) :
  marker_free (a +:+ b) → marker_free a ∧ marker_free b.
Proof.
  unfold marker_free. intros H. split.
  - destruct (PyStr.contains END_MARKER a) eqn:Ha; [|done].
    by rewrite (contains_app_l _ _ b Ha) in H.
  - destruct (PyStr.contains END_MARKER b) eqn:Hb; [|done].
    by rewrite (contains_app_r _ a _ Hb) in H.
Qed.

Lemma marker_free_flatten (front : list string) (x : string) :
  marker_free (flatten front +:+ x) → Forall marker_free front ∧ marker_free x.
Proof.
  induction front as [|f front IH]; simpl.
  - intros H. split; [constructor|done].
  - rewrite str_app_assoc. intros [Hf Hrest]%marker_free_app.
    destruct (IH Hrest). split; [by constructor|done].
Qed.

Lemma substring_app_l (x t : string) :
  String.substring 0 (String.length x) (x +:+ t) = x.
Proof.
  induction x as [|c x IH].
  - rewrite str_app_nil_l. by destruct t.
  - rewrite str_app_cons. simpl. by rewrite IH.
Qed.

Lemma substring_app_r (x t : string) (n : nat) :
  String.substring (String.length x) n (x +:+ t) = String.substring 0 n t.
Proof. induction x as [|c x IH]; [done|]. by rewrite str_app_cons. Qed.

Lemma drop_end_app (x t : string) :
  PyStr.drop_end (String.length t) (x +:+ t) = x.
Proof.
  unfold PyStr.drop_end. rewrite str_length_app.
  replace (String.length x + String.length t - String.length t)
    with (String.length x) by lia.
  apply substring_app_l.
Qed.

Lemma endswith_app (x t : string) : PyStr.endswith t (x +:+ t) = true.
Proof.
  unfold PyStr.endswith, PyStr.take_end. rewrite str_length_app.
  replace (String.length x + String.length t - String.length t)
    with (String.length x) by lia.
  rewrite substring_app_r, substring_all, String.eqb_refl.
  rewrite andb_true_r. apply Nat.leb_le. lia.
Qed.

Lemma strip_end_marker_end_marked (front : list string) (x : string) :
  strip_end_marker (front ++ [x +:+ END_MARKER]) = Ok front
  ∨ strip_end_marker (front ++ [x +:+ END_MARKER]) = Ok (front ++ [x]).
Proof.
  unfold strip_end_marker. rewrite last_snoc, removelast_last.
  destruct (String.eqb (x +:+ END_MARKER) END_MARKER); [by left|].
  rewrite (endswith_app x END_MARKER). right.
  do 3 f_equal. exact (drop_end_app x END_MARKER).
Qed.

Lemma str_app_eq_app (s1 s2 t1 t2 : string) :
  s1 +:+ s2 = t1 +:+ t2 →
  ∃ k, (s1 = t1 +:+ k ∧ t2 = k +:+ s2) ∨ (t1 = s1 +:+ k ∧ s2 = k +:+ t2).
Proof.
  revert t1. induction s1 as [|c s1 IH]; intros t1 H.
  - exists t1. by right.
  - destruct t1 as [|c' t1].
    + exists (String c s1). left. by rewrite str_app_nil_l in *.
    + rewrite !str_app_cons in H. injection H as -> H.
      destruct (IH t1 H) as [k [[-> ->]|[-> ->]]]; exists k; [left|right];
        by rewrite ?str_app_cons.
Qed.

Lemma prefix_cons (c c' : ascii) (s u : string) :
  String.prefix (String c s) (String c' u)
  = if ascii_dec c c' then String.prefix s u else false.
Proof. reflexivity. Qed.

Lemma prefix_cons_nil (c : ascii) (s : string) :
  String.prefix (String c s) "" = false.
Proof. reflexivity. Qed.

(** The end marker has no border: appending a proper prefix of it to a
    marker-free string does not create an occurrence. *)
Lemma prefix_marker_app (u k : string) :
  k = "" ∨ k = "<" ∨ k = "</" ∨ k = "</w" →
  String.prefix END_MARKER u = false →
  String.prefix END_MARKER (u +:+ k) = false.
Proof.
  intros Hk.
  destruct u as [|c1 [|c2 [|c3 [|c4 u]]]];
    rewrite ?str_app_cons, ?str_app_nil_l;
    destruct Hk as [->|[->|[->| ->]]]; unfold END_MARKER;
    repeat first
      [ progress (rewrite ?prefix_cons, ?prefix_cons_nil, ?prefix_nil_l)
      | done
      | destruct (ascii_dec _ _) ].
Qed.

Lemma marker_free_app_prefix (s k : string) :
  k = "" ∨ k = "<" ∨ k = "</" ∨ k = "</w" →
  marker_free s → marker_free (s +:+ k).
Proof.
  intros Hk. unfold marker_free. induction s as [|c s IH].
  - intros _. rewrite str_app_nil_l. by destruct Hk as [->|[->|[->| ->]]].
  - cbn [PyStr.contains]. intros [Hp Hs]%orb_false_elim.
    rewrite str_app_cons. cbn [PyStr.contains].
    rewrite <-str_app_cons, (prefix_marker_app _ _ Hk Hp).
    by rewrite (IH Hs).
Qed.

Lemma marker_prefixes (k r : string) :
  END_MARKER = k +:+ r → r ≠ "" →
  k = "" ∨ k = "<" ∨ k = "</" ∨ k = "</w".
Proof.
  unfold END_MARKER. intros H Hr.
  destruct k as [|c1 [|c2 [|c3 [|c4 k]]]];
    rewrite ?str_app_cons, ?str_app_nil_l in H; simplify_eq; auto.
  destruct k; [|done]. by rewrite str_app_nil_l in *.
Qed.

Lemma substring_0_0 (s : string) : String.substring 0 0 s = "".
Proof. by destruct s. Qed.

(** What the reverse index can return for a marker-free segment looked up
    with the end marker attached. *)
Lemma final_lookup_marker_free (segment l r : string) :
  segment +:+ END_MARKER = l +:+ r → r ≠ "" → marker_free segment →
  marker_free l ∧ marker_free (PyStr.drop_end 4 r).
Proof.
  intros Heq Hr Hfree.
  destruct (str_app_eq_app _ _ _ _ Heq) as [k [[-> ->]|[-> Hm]]].
  - apply marker_free_app in Hfree as [Hl Hk]. split; [done|].
    change 4 with (String.length END_MARKER). by rewrite drop_end_app.
  - split.
    + apply marker_free_app_prefix; [|done]. by eapply marker_prefixes.
    + apply (f_equal String.length) in Hm. rewrite str_length_app in Hm.
      simpl in Hm. unfold PyStr.drop_end.
      replace (String.length r - 4) with 0 by lia.
      by rewrite substring_0_0.
Qed.

(** The closure keeps marker-free segments marker-free, on any reverse
    index of real merges. *)
Section Closure.

Context (rev : gmap string (string * string)) (vocab : gset string)
  (sep : string) (Hwf : rev_wf rev).

Lemma recursive_split_marker_free depth segment final out :
  marker_free segment →
  recursive_split depth segment rev vocab sep final = Ok out →
  Forall marker_free out.
Proof.
  revert segment final out.
  induction depth as [|depth IH]; intros segment final out Hfree; [done|].
  simpl.
  destruct (rev !! (if final then segment +:+ END_MARKER else segment))
    as [[l r0]|] eqn:Hlook.
  2:{ intros [= <-]. by constructor. }
  apply Hwf in Hlook as [Hkey Hr0].
  assert (marker_free l
          ∧ marker_free (if final then PyStr.drop_end 4 r0 else r0))
    as [Hl Hr].
  { destruct final.
    - by apply (final_lookup_marker_free segment).
    - rewrite Hkey in Hfree. by apply marker_free_app. }
  destruct (if decide (l +:+ sep ∈ vocab) then _ else _) as [ls|] eqn:Hls;
    [|done].
  assert (Forall marker_free ls) as Hlsf.
  { destruct (decide (l +:+ sep ∈ vocab)).
    - injection Hls as <-. by constructor.
    - eapply IH; [|exact Hls]. done. }
  match goal with
  | |- match ?x with _ => _ end = _ → _ => destruct x as [rs|] eqn:Hrs
  end; [|done].
  intros [= <-]. apply Forall_app. split; [done|].
  case_if_in Hrs.
  - injection Hrs as <-. by constructor.
  - eapply IH; [|exact Hrs]. done.
Qed.

Lemma split_nonfinal_marker_free depth segments out :
  Forall marker_free segments →
  split_nonfinal depth segments rev vocab sep = Ok out →
  Forall marker_free out.
Proof.
  intros Hall. revert out.
  induction Hall as [|segment rest Hseg Hrest IH]; intros out; simpl.
  - by intros [= <-].
  - destruct (if decide (segment +:+ sep ∈ vocab) then _ else _)
      as [o|] eqn:Ho; [|done].
    destruct (split_nonfinal depth rest rev vocab sep) as [o'|]; [|done].
    intros [= <-]. apply Forall_app. split; [|by apply IH].
    destruct (decide (segment +:+ sep ∈ vocab)).
    + injection Ho as <-. by constructor.
    + eapply recursive_split_marker_free; [|exact Ho]. done.
Qed.

Lemma check_vocab_and_split_marker_free depth word out :
  Forall marker_free word →
  check_vocab_and_split depth word rev vocab sep = Ok out →
  Forall marker_free out.
Proof.
  intros Hall. unfold check_vocab_and_split.
  destruct (split_nonfinal depth (removelast word) rev vocab sep) as [o|]
    eqn:Ho; [|done].
  assert (Forall marker_free o) as Hof.
  { eapply split_nonfinal_marker_free; [|exact Ho].
    destruct word as [|w word _] using rev_ind; [done|].
    rewrite removelast_last. by apply Forall_app in Hall as [? _]. }
  destruct (last word) as [segment|] eqn:Hlast; [|done].
  assert (marker_free segment) as Hseg.
  { apply last_Some in Hlast as [front ->].
    apply Forall_app in Hall as [_ Hs]. by inversion Hs. }
  destruct (decide (segment ∈ vocab)).
  - intros [= <-]. apply Forall_app. split; [done|]. by constructor.
  - destruct (recursive_split depth segment rev vocab sep true) as [o'|]
      eqn:Ho'; [|done].
    intros [= <-]. apply Forall_app. split; [done|].
    eapply recursive_split_marker_free; [|exact Ho']. done.
Qed.

End Closure.

Lemma flatten_chars (s : string) : flatten (PyStr.chars s) = s.
Proof. induction s as [|c s IH]; [done|]. simpl. by rewrite IH. Qed.

Lemma drop_take_end (s : string) :
  s ≠ "" → PyStr.drop_end 1 s +:+ PyStr.take_end 1 s = s.
Proof.
  unfold PyStr.drop_end, PyStr.take_end.
  induction s as [|c s IH]; [done|]. intros _.
  destruct s as [|c' s]; [done|].
  specialize (IH ltac:(done)). simpl in *. rewrite Nat.sub_0_r in *.
  rewrite str_app_cons. by rewrite IH.
Qed.

Lemma initial_word_end_marked version orig word :
  initial_word version orig = Ok word → end_marked orig word.
Proof.
  unfold initial_word. destruct (decide (version = [0; 1]%Z)).
  { intros [= <-]. exists (PyStr.chars orig), "". split; [done|].
    by rewrite str_app_nil_r, flatten_chars. }
  destruct (decide (version = [0; 2]%Z)); [|done].
  destruct orig as [|c orig]; [done|]. intros [= <-].
  eexists _, _. split; [done|].
  rewrite flatten_chars. by apply drop_take_end.
Qed.

Lemma prefix_substring (t e : string) :
  String.substring 0 (String.length t) e = t → String.prefix t e = true.
Proof.
  revert e. induction t as [|c t IH]; intros e; [by destruct e|].
  destruct e as [|c' e]; [done|]. simpl. intros [= -> H].
  destruct (ascii_dec c c); [by apply IH|done].
Qed.

Lemma contains_substring (t e : string) (n : nat) :
  String.substring n (String.length t) e = t → PyStr.contains t e = true.
Proof.
  revert n. induction e as [|c e IH]; intros n H.
  - destruct n, t; simpl in H; by simplify_eq.
  - destruct n as [|n].
    + cbn [PyStr.contains]. by rewrite (prefix_substring _ _ H).
    + cbn [PyStr.contains]. simpl in H. rewrite (IH n H). apply orb_true_r.
Qed.

Lemma endswith_contains (t e : string) :
  PyStr.endswith t e = true → PyStr.contains t e = true.
Proof.
  unfold PyStr.endswith, PyStr.take_end.
  intros [_ H%String.eqb_eq]%andb_prop. by eapply contains_substring.
Qed.

Lemma marker_free_hidden (e : string) :
  marker_free e →
  e ≠ END_MARKER ∧ PyStr.endswith END_MARKER e = false
  ∧ PyStr.contains END_MARKER e = false.
Proof.
  intros He. split; [|split; [|done]].
  - intros ->. done.
  - destruct (PyStr.endswith END_MARKER e) eqn:H; [|done].
    apply endswith_contains in H. unfold marker_free in He. congruence.
Qed.

Lemma chars_marker_free (s : string) : Forall marker_free (PyStr.chars s).
Proof.
  induction s as [|c s IH]; constructor; [|done].
  unfold marker_free, END_MARKER, PyStr.char. cbn [PyStr.contains].
  rewrite prefix_cons, prefix_cons_nil. by destruct (ascii_dec _ _).
Qed.

Lemma cache_clean_insert cache orig r :
  cache_clean cache → (marker_free orig → Forall marker_free (items r)) →
  cache_clean (<[orig := r]> cache).
Proof.
  intros Hc Hr w r'. destruct (decide (orig = w)) as [->|Hne].
  - rewrite lookup_insert_eq. intros [= <-]. done.
  - rewrite lookup_insert_ne by done. apply Hc.
Qed.

(** The symbols left by the merge loop and the removal of the end marker
    are pieces of the word. *)
Lemma segmentation_marker_free version orig word0 fuel codes dropout random
    drawn word1 drawn' word2 :
  marker_free orig →
  initial_word version orig = Ok word0 →
  merge_loop fuel codes dropout random word0 drawn = Some (word1, drawn') →
  strip_end_marker word1 = Ok word2 →
  Forall marker_free word2.
Proof.
  intros Hfree Hinit%initial_word_end_marked Hloop Hstrip.
  apply (merge_loop_end_marked _ _ _ _ orig) in Hloop; [|done].
  destruct Hloop as (front & x & -> & Horig).
  rewrite <-Horig in Hfree. apply marker_free_flatten in Hfree as [Hfront Hx].
  destruct (strip_end_marker_end_marked front x) as [H|H];
    rewrite H in Hstrip; injection Hstrip as <-; [done|].
  apply Forall_app. split; [done|]. by constructor.
Qed.

(** Every call of [encode], on any word and whatever its outcome, keeps the
    cache clean; a value returned for a marker-free word is marker-free. *)
Lemma encode_cache_clean orig codes rev vocab sep version re dropout st r st' :
  rev_wf rev → cache_clean (st_cache st) →
  encode orig codes rev vocab sep version re dropout st = (r, st') →
  cache_clean (st_cache st')
  ∧ ∀ v, r = Ok v → marker_free orig → Forall marker_free (items v).
Proof.
  intros Hwf Hclean. unfold encode.
  destruct (if no_dropout dropout then st_cache st !! orig else None)
    as [hit|] eqn:Hhit.
  { intros [= <- <-]. split; [done|]. intros v [= <-] Hfree.
    destruct (no_dropout dropout); [|done]. by eapply Hclean. }
  destruct (regex_matches re orig).
  { intros [= <- <-]. simpl. split.
    - apply cache_clean_insert; [done|]. intros Hfree. by constructor.
    - intros v [= <-] Hfree. by constructor. }
  destruct (String.length orig =? 1) eqn:Hlen.
  { intros [= <- <-]. split; [done|]. intros v [= <-] _.
    apply chars_marker_free. }
  destruct (initial_word version orig) as [word|] eqn:Hinit;
    [|by intros [= <- <-]].
  destruct (merge_loop _ _ _ _ _ _) as [[word' drawn]|] eqn:Hloop;
    [|by intros [= <- <-]].
  destruct (strip_end_marker word') as [w|] eqn:Hstrip;
    [|by intros [= <- <-]].
  pose proof (λ Hfree, segmentation_marker_free _ _ _ _ _ _ _ _ _ _ _
                         Hfree Hinit Hloop Hstrip) as Hw.
  simpl. destruct (vocab_given vocab) as [v|].
  - destruct (check_vocab_and_split _ _ _ _ _) as [out|] eqn:Hout;
      [|by intros [= <- <-]].
    assert (marker_free orig → Forall marker_free out) as Hfree_out.
    { intros Hfree.
      by apply (check_vocab_and_split_marker_free _ _ _ Hwf _ _ _ (Hw Hfree))
        in Hout. }
    intros [= <- <-]. simpl. split; [by apply cache_clean_insert|].
    by intros ? [= <-].
  - intros [= <- <-]. simpl. split; [by apply cache_clean_insert|].
    by intros ? [= <-].
Qed.

Lemma cache_clean_empty : cache_clean ∅.
Proof. intros w r. by rewrite lookup_empty. Qed.

(** The claim C8 as stated fails on a word that contains the text of the
    end marker: under both conventions the merges rebuild "</w>" from the
    characters of the word, and it is returned as a subword. *)
Lemma encode_returns_marker_text :
  fst (encode "</w>x" marker_codes ∅ None "@@" [0; 1]%Z None 0 idle)
    = Ok (PTuple ["</w>"; "x"])
  ∧ fst (encode "</w>x" marker_codes ∅ None "@@" [0; 2]%Z None 0 idle)
    = Ok (PTuple ["</w>"; "x"])
  ∧ "</w>" = END_MARKER.
Proof. vm_compute. repeat split; reflexivity. Qed.

(** C8, as the code has it. Let the word not contain the text "</w>", let
    the reverse index consist of real merges (each key the concatenation of
    its pair, the right part non-empty) and let the cache hold marker-free
    values for marker-free words, as the empty cache does and as every call
    of [encode] preserves. Then, under either convention and any dropout, no
    subword returned by [encode] is the end marker, ends with it or contains
    it, and the cache keeps its property. *)
Theorem encode_hides_end_marker orig codes rev vocab sep version re dropout
    st r st' :
  marker_free orig → rev_wf rev → cache_clean (st_cache st) →
  encode orig codes rev vocab sep version re dropout st = (Ok r, st') →
  (∀ e, e ∈ items r →
        e ≠ END_MARKER ∧ PyStr.endswith END_MARKER e = false
        ∧ PyStr.contains END_MARKER e = false)
  ∧ cache_clean (st_cache st').
Proof.
  intros Hfree Hwf Hclean Henc.
  destruct (encode_cache_clean _ _ _ _ _ _ _ _ _ _ _ Hwf Hclean Henc)
    as [Hclean' Hitems].
  split; [|done]. intros e He. apply marker_free_hidden.
  specialize (Hitems r eq_refl Hfree). by eapply Forall_forall in Hitems.
Qed.

Lemma encode_hides_end_marker_witness :
  marker_free "abc" ∧ rev_wf abc_reverse ∧ cache_clean (st_cache idle)
  ∧ encode "abc" abc_codes abc_reverse (Some {[ "a@@" ]}) "@@" [0; 2]%Z None 0
      idle
    = (Ok (PList ["a"; "b"; "c"]),
       set_cache {[ "abc" := PList ["a"; "b"; "c"] ]} idle)
  ∧ (∀ e, e ∈ ["a"; "b"; "c"] →
          e ≠ END_MARKER ∧ PyStr.endswith END_MARKER e = false
          ∧ PyStr.contains END_MARKER e = false)
  ∧ cache_clean {[ "abc" := PList ["a"; "b"; "c"] ]}.
Proof.
  assert (marker_free "abc") as Hfree by reflexivity.
  assert (rev_wf abc_reverse) as Hwf.
  { intros k l r Hk. unfold abc_reverse in Hk.
    apply lookup_insert_Some in Hk as [[<- [= <- <-]]|[_ Hk]]; [done|].
    apply lookup_singleton_Some in Hk as [<- [= <- <-]]. done. }
  assert (cache_clean (st_cache idle)) as Hclean by exact cache_clean_empty.
  assert (encode "abc" abc_codes abc_reverse (Some {[ "a@@" ]}) "@@" [0; 2]%Z
            None 0 idle
          = (Ok (PList ["a"; "b"; "c"]),
             set_cache {[ "abc" := PList ["a"; "b"; "c"] ]} idle)) as Henc
    by (vm_compute; reflexivity).
  do 4 (split; [done|]).
  exact (encode_hides_end_marker "abc" abc_codes abc_reverse
           (Some {[ "a@@" ]}) "@@" [0; 2]%Z None 0 idle _ _ Hfree Hwf Hclean
           Henc).
Defined.

(** ** Recursion in the vocabulary closure *)

Lemma recursive_split_unfold depth segment rev vocab sep final :
  recursive_split (S depth) segment rev vocab sep final
  = match rev !! (if final then segment +:+ END_MARKER else segment) with
    | None => Ok [segment]
    | Some (lft, rgt0) =>
        let rgt := if final then PyStr.drop_end 4 rgt0 else rgt0 in
        match
          (if decide (lft +:+ sep ∈ vocab) then Ok [lft]
           else recursive_split depth lft rev vocab sep false)
        with
        | Raise e => Raise e
        | Ok ls =>
            match
              (if (if final then bool_decide (rgt ∈ vocab)
                   else bool_decide (rgt +:+ sep ∈ vocab))
               then Ok [rgt]
               else recursive_split depth rgt rev vocab sep final)
            with
            | Raise e => Raise e
            | Ok rs => Ok (ls ++ rs)
            end
        end
    end.
Proof. reflexivity. Qed.

Lemma loop_vocab_only (s : string) : s ≠ "zzz" → s ∉ loop_vocab.
Proof. unfold loop_vocab. set_solver. Qed.

Lemma recursive_split_loop_leaf depth (s : string) :
  loop_reverse !! s = None →
  recursive_split depth s loop_reverse loop_vocab "@@" false = Ok [s]
  ∨ recursive_split depth s loop_reverse loop_vocab "@@" false
    = Raise RecursionError.
Proof.
  intros Hs. destruct depth as [|depth]; [by right|].
  left. rewrite recursive_split_unfold. by rewrite Hs.
Qed.

(** The closure never comes back from the empty segment in final mode:
    its key is the end marker, whose right part is cut to the empty segment
    again. *)
Lemma recursive_split_loop_empty depth :
  recursive_split depth "" loop_reverse loop_vocab "@@" true
  = Raise RecursionError.
Proof.
  induction depth as [|depth IH]; [done|].
  rewrite recursive_split_unfold.
  change (loop_reverse !! ("" +:+ END_MARKER)) with (Some ("<", "/w>")).
  cbv beta iota zeta. change (PyStr.drop_end 4 "/w>") with "".
  rewrite decide_False by (by apply loop_vocab_only).
  destruct (recursive_split_loop_leaf depth "<" eq_refl) as [-> | ->];
    [|done].
  rewrite bool_decide_eq_false_2 by (by apply loop_vocab_only).
  by rewrite IH.
Qed.

Lemma recursive_split_loop_a depth :
  recursive_split depth "a" loop_reverse loop_vocab "@@" true
  = Raise RecursionError.
Proof.
  destruct depth as [|depth]; [done|].
  rewrite recursive_split_unfold.
  change (loop_reverse !! ("a" +:+ END_MARKER)) with (Some ("a</", "w>")).
  cbv beta iota zeta. change (PyStr.drop_end 4 "w>") with "".
  rewrite decide_False by (by apply loop_vocab_only).
  destruct (recursive_split_loop_leaf depth "a</" eq_refl) as [-> | ->];
    [|done].
  rewrite bool_decide_eq_false_2 by (by apply loop_vocab_only).
  by rewrite recursive_split_loop_empty.
Qed.

(** C9, the behaviour of the code. The table with the two lines "a</ w>"
    and "< /w>" is accepted by [__init__]. With any non-empty vocabulary
    that holds none of the pieces, closing the word "xa" looks up "a</w>",
    cuts the right part "w>" to the empty segment, looks up "</w>", cuts
    "/w>" to the empty segment again, and so on: whatever recursion depth
    the interpreter allows is exhausted. *)
Theorem closure_recursion_unbounded :
  (∃ bpe,
     BPE.__init__ loop_table (-1) "@@" (Some loop_vocab) None = Ok bpe
     ∧ BPE.bpe_codes bpe = loop_codes
     ∧ BPE.bpe_codes_reverse bpe = loop_reverse)
  ∧ (∀ depth,
       recursive_split depth "" loop_reverse loop_vocab "@@" true
       = Raise RecursionError)
  ∧ ∀ random limit,
      fst (encode "xa" loop_codes loop_reverse (Some loop_vocab) "@@"
             [0; 1]%Z None 0 (BPE.fresh random limit))
      = Raise RecursionError.
Proof.
  split; [|split].
  - eexists. split; [vm_compute; reflexivity|]. split; vm_compute; reflexivity.
  - apply recursive_split_loop_empty.
  - intros random limit. unfold encode.
    change (no_dropout 0) with true. cbv iota.
    change (st_cache (BPE.fresh random limit) !! "xa") with (@None pyseq).
    change (regex_matches None "xa") with false.
    change (String.length "xa" =? 1) with false. cbv iota.
    change (initial_word [0; 1]%Z "xa") with (Ok ["x"; "a"; END_MARKER]).
    cbv iota.
    assert (merge_loop 3 loop_codes 0 random ["x"; "a"; END_MARKER] 0
            = Some (["x"; "a"; END_MARKER], 0)) as Hloop
      by (vm_compute; reflexivity).
    change (length ["x"; "a"; END_MARKER]) with 3.
    change (st_random (BPE.fresh random limit)) with random.
    change (st_drawn (BPE.fresh random limit)) with 0.
    rewrite Hloop. cbv iota zeta.
    change (strip_end_marker ["x"; "a"; END_MARKER]) with (Ok ["x"; "a"]).
    cbv iota.
    assert (vocab_given (Some loop_vocab) = Some loop_vocab) as ->
      by (vm_compute; reflexivity).
    change (st_recursion_limit (set_drawn 0 (BPE.fresh random limit)))
      with limit.
    unfold check_vocab_and_split.
    change (removelast ["x"; "a"]) with ["x"]. cbn [split_nonfinal].
    rewrite (decide_False (P:=("x" +:+ "@@" ∈ loop_vocab)))
      by (by apply loop_vocab_only).
    destruct (recursive_split_loop_leaf limit "x" eq_refl) as [-> | ->];
      [|done].
    change (last ["x"; "a"]) with (Some "a"). cbv beta iota.
    rewrite decide_False by (by apply loop_vocab_only).
    by rewrite recursive_split_loop_a.
Qed.

(** ** The reverse index built by [__init__] consists of real merges *)

Lemma lstrip_first (p : ascii → bool) (s : string) c t :
  PyStr.lstrip p s = String c t → p c = false.
Proof.
  induction s as [|c' s IH]; [done|]. simpl.
  destruct (p c') eqn:Hc; [done|]. by intros [= <- _].
Qed.

Lemma lstrip_last_char (p : ascii → bool) (s : string) c :
  last_char (PyStr.lstrip p s) = Some c → last_char s = Some c.
Proof.
  induction s as [|c' s IH]; [done|]. simpl.
  destruct (p c'); [|done]. intros H. specialize (IH H).
  by destruct s.
Qed.

Lemma rstrip_last_char (p : ascii → bool) (s : string) c :
  last_char (PyStr.rstrip p s) = Some c → p c = false.
Proof.
  induction s as [|c' s IH]; [done|]. simpl.
  destruct (PyStr.rstrip p s) as [|c'' r] eqn:Hr.
  - destruct (p c') eqn:Hc; [done|]. by intros [= <-].
  - done.
Qed.

Lemma strip_ends (p : ascii → bool) (s : string) :
  (∀ c t, PyStr.strip p s = String c t → p c = false)
  ∧ (∀ c, last_char (PyStr.strip p s) = Some c → p c = false).
Proof.
  unfold PyStr.strip. split.
  - intros c t. apply lstrip_first.
  - intros c H. apply lstrip_last_char in H. by eapply rstrip_last_char.
Qed.

Lemma split_first_empty (sep : ascii) (s : string) rest :
  PyStr.split sep s = "" :: rest → s = "" ∨ ∃ t, s = String sep t.
Proof.
  destruct s as [|c s]; [by left|]. simpl.
  destruct (Ascii.eqb c sep) eqn:Hc.
  - apply Ascii.eqb_eq in Hc as ->. right. by eexists.
  - by destruct (PyStr.split sep s).
Qed.

Lemma split_last_empty (sep : ascii) (s : string) :
  last (PyStr.split sep s) = Some "" → s = "" ∨ last_char s = Some sep.
Proof.
  induction s as [|c s IH]; [by left|]. simpl. right.
  destruct (Ascii.eqb c sep) eqn:Hc.
  - apply Ascii.eqb_eq in Hc as ->.
    pose proof (split_nonempty sep s) as Hne.
    destruct (PyStr.split sep s) as [|h t] eqn:Hs; [done|].
    rewrite last_cons_cons in H. destruct (IH H) as [->|Hl]; [done|].
    by destruct s.
  - pose proof (split_nonempty sep s) as Hne.
    destruct (PyStr.split sep s) as [|h [|h' t]] eqn:Hs; [done|done|].
    rewrite last_cons_cons in H.
    assert (last (h :: h' :: t) = Some "") as H' by by rewrite last_cons_cons.
    destruct (IH H') as [->|Hl]; [done|]. by destruct s.
Qed.

(** A stripped line that is cut into exactly two fields has two non-empty
    fields. *)
Lemma split_strip_pair (line a b : string) :
  PyStr.split PyStr.SP (PyStr.strip PyStr.crlfsp line) = [a; b] →
  a ≠ "" ∧ b ≠ "".
Proof.
  intros H. destruct (strip_ends PyStr.crlfsp line) as [Hfirst Hlast].
  assert (PyStr.strip PyStr.crlfsp line ≠ "") as Hne.
  { intros Heq. by rewrite Heq in H. }
  split; intros ->.
  - apply split_first_empty in H as [?|[t Ht]]; [done|].
    by specialize (Hfirst _ _ Ht).
  - assert (last (PyStr.split PyStr.SP (PyStr.strip PyStr.crlfsp line))
            = Some "") as Hl by by rewrite H.
    apply split_last_empty in Hl as [?|Hl]; [done|].
    by specialize (Hlast _ Hl).
Qed.

Lemma check_codes_pairs offset i items pairs a b :
  BPE.check_codes offset i items = Ok pairs →
  (a, b) ∈ pairs → [a; b] ∈ items.
Proof.
  revert i pairs. induction items as [|item items IH]; intros i pairs; simpl.
  - intros [= <-] H. by apply elem_of_nil in H.
  - destruct item as [|x [|y [|z item]]]; try done.
    destruct (BPE.check_codes offset (S i) items) as [ps|] eqn:Hps; [|done].
    intros [= <-] [[= -> ->]|Hin]%elem_of_cons; [by left|].
    right. by eapply IH.
Qed.

Lemma read_codes_items body merges item :
  item ∈ BPE.read_codes body merges →
  ∃ line, item = PyStr.split PyStr.SP (PyStr.strip PyStr.crlfsp line).
Proof.
  unfold BPE.read_codes. intros (ni & -> & _)%list_elem_of_fmap. by eexists.
Qed.

Lemma dict_set_subset {K V} `{EqDecision K} (k : K) (v : V) d x :
  x ∈ dict_set k v d → x = (k, v) ∨ x ∈ d.
Proof.
  induction d as [|[k' v'] d IH]; simpl.
  - intros ->%list_elem_of_singleton. by left.
  - destruct (decide (k = k')).
    + intros [->|?]%elem_of_cons; [by left|]. right. by right.
    + intros [->|[->|?]%IH]%elem_of_cons; [right; by left|by left|].
      right. by right.
Qed.

Lemma dict_subset {K V} `{EqDecision K} (l : list (K * V)) x :
  x ∈ dict l → x ∈ l.
Proof.
  unfold dict.
  assert (∀ acc, x ∈ fold_left (λ d kv, dict_set kv.1 kv.2 d) l acc →
                 x ∈ acc ∨ x ∈ l) as Hgen.
  { induction l as [|[k v] l IH]; intros acc; simpl; [by left|].
    intros [[->|?]%dict_set_subset|?]%IH.
    - right. by left.
    - by left.
    - right. by right. }
  intros [H|H]%Hgen; [|done]. by apply elem_of_nil in H.
Qed.

Lemma init_rev_wf codes merges sep vocab glossaries bpe :
  BPE.__init__ codes merges sep vocab glossaries = Ok bpe →
  rev_wf (BPE.bpe_codes_reverse bpe).
Proof.
  unfold BPE.__init__.
  destruct (BPE.read_header codes) as [[[v offset] body]|]; [|done].
  destruct (BPE.check_codes offset 0 (BPE.read_codes body merges))
    as [pairs|] eqn:Hcheck; [|done].
  intros [= <-] k l r Hk. simpl in Hk.
  apply elem_of_list_to_map_2 in Hk.
  unfold BPE.reverse_dict in Hk. apply dict_subset in Hk.
  apply list_elem_of_fmap in Hk as ([[a b] i] & [= -> -> ->] & Hd).
  split; [done|].
  unfold BPE.codes_dict in Hd. apply dict_subset in Hd.
  apply list_elem_of_fmap in Hd as ([i' [a' b']] & [= <- <- <-] & Hin).
  unfold enumerate in Hin.
  apply list_elem_of_In, in_rev, in_combine_r, list_elem_of_In in Hin.
  apply (check_codes_pairs _ _ _ _ _ _ Hcheck) in Hin.
  apply read_codes_items in Hin as [line Hline].
  symmetry in Hline. by apply split_strip_pair in Hline as [_ ?].
Qed.

(** ** Where the closure does terminate *)

Lemma length_pos (s : string) : s ≠ "" → 0 < String.length s.
Proof. destruct s; [done|]. simpl. lia. Qed.

Lemma substring_split (s : string) (n : nat) :
  n ≤ String.length s →
  s = String.substring 0 n s +:+ String.substring n (String.length s - n) s.
Proof.
  revert n. induction s as [|c s IH]; intros n Hn.
  - by destruct n.
  - destruct n as [|n]; simpl.
    + by rewrite str_app_nil_l, substring_all.
    + rewrite str_app_cons. rewrite <-IH; [done|]. simpl in Hn. lia.
Qed.

Lemma endswith_split (t s : string) :
  PyStr.endswith t s = true → ∃ x, s = x +:+ t.
Proof.
  unfold PyStr.endswith, PyStr.take_end.
  intros [Hlen%Nat.leb_le Heq%String.eqb_eq]%andb_prop.
  exists (String.substring 0 (String.length s - String.length t) s).
  pose proof (substring_split s (String.length s - String.length t)
                ltac:(lia)) as Hsplit.
  replace (String.length s - (String.length s - String.length t))
    with (String.length t) in Hsplit by lia.
  by rewrite Heq in Hsplit.
Qed.

Lemma str_app_inv_r (s1 s2 t : string) : s1 +:+ t = s2 +:+ t → s1 = s2.
Proof.
  revert s2. induction s1 as [|c s1 IH]; intros s2 H.
  - apply (f_equal String.length) in H. rewrite !str_length_app in H.
    destruct s2; [done|]. simpl in H. lia.
  - destruct s2 as [|c' s2].
    + apply (f_equal String.length) in H. rewrite !str_length_app in H.
      simpl in H. lia.
    + rewrite !str_app_cons in H. injection H as -> H. f_equal. by apply IH.
Qed.

(** On a reverse index of real merges whose word-final merges keep the end
    marker on the right, [recursive_split] returns within a recursion depth
    of the length of the segment plus one, plus two in final mode. *)
Lemma recursive_split_terminates rev vocab sep depth (segment : string)
    (final : bool) :
  rev_marked rev →
  String.length segment + (if final then 2 else 1) ≤ depth →
  ∃ out, recursive_split depth segment rev vocab sep final = Ok out.
Proof.
  intros Hrev. revert segment final.
  induction depth as [|depth IH]; intros segment final Hdepth;
    [destruct final; lia|].
  rewrite recursive_split_unfold.
  destruct (rev !! (if final then segment +:+ END_MARKER else segment))
    as [[l r0]|] eqn:Hlook; [|by eexists].
  destruct (Hrev _ _ _ Hlook) as (Hkey & Hl & Hr & Hend).
  apply length_pos in Hl. apply length_pos in Hr.
  cbv zeta.
  assert (String.length l + 1 ≤ depth
          ∧ String.length (if final then PyStr.drop_end 4 r0 else r0)
            + (if final then 2 else 1) ≤ depth) as [Hleft Hright].
  { destruct final.
    - destruct (endswith_split _ _ (Hend (endswith_app segment END_MARKER)))
        as [k ->].
      rewrite <-str_app_assoc in Hkey. apply str_app_inv_r in Hkey.
      subst segment. rewrite str_length_app in Hdepth.
      change 4 with (String.length END_MARKER). rewrite drop_end_app. lia.
    - subst segment. rewrite str_length_app in Hdepth. lia. }
  destruct (IH l false Hleft) as [ls Hls].
  destruct (IH _ final Hright) as [rs Hrs].
  rewrite Hls, Hrs.
  destruct (decide (l +:+ sep ∈ vocab));
    case_if; by eexists.
Qed.

(** ** The fuel of the merge loop is never the reason for a failure *)

Lemma recursive_split_raises depth segment rev vocab sep final e :
  recursive_split depth segment rev vocab sep final = Raise e →
  e = RecursionError.
Proof.
  revert segment final.
  induction depth as [|depth IH]; intros segment final; simpl;
    [by intros [= <-]|].
  destruct (rev !! _) as [[l r0]|]; [|done].
  destruct (decide (l +:+ sep ∈ vocab)).
  - case_if; [done|].
    destruct (recursive_split depth _ rev vocab sep final) eqn:H; [done|].
    intros [= <-]. by eapply IH.
  - destruct (recursive_split depth l rev vocab sep false) eqn:Hl.
    + case_if; [done|].
      destruct (recursive_split depth _ rev vocab sep final) eqn:H; [done|].
      intros [= <-]. by eapply IH.
    + intros [= <-]. by eapply IH.
Qed.

Lemma split_nonfinal_raises depth segments rev vocab sep e :
  split_nonfinal depth segments rev vocab sep = Raise e → e = RecursionError.
Proof.
  induction segments as [|segment rest IH]; simpl; [done|].
  destruct (decide (segment +:+ sep ∈ vocab)).
  - destruct (split_nonfinal depth rest rev vocab sep); [done|].
    intros [= <-]. by apply IH.
  - destruct (recursive_split depth segment rev vocab sep false) eqn:H.
    + destruct (split_nonfinal depth rest rev vocab sep); [done|].
      intros [= <-]. by apply IH.
    + intros [= <-]. by eapply recursive_split_raises.
Qed.

Lemma check_vocab_and_split_raises depth word rev vocab sep e :
  check_vocab_and_split depth word rev vocab sep = Raise e →
  e = RecursionError ∨ e = IndexError.
Proof.
  unfold check_vocab_and_split.
  destruct (split_nonfinal depth (removelast word) rev vocab sep) eqn:Hs.
  - destruct (last word) as [segment|]; [|intros [= <-]; by right].
    destruct (decide (segment ∈ vocab)); [done|].
    destruct (recursive_split depth segment rev vocab sep true) eqn:H; [done|].
    intros [= <-]. left. by eapply recursive_split_raises.
  - intros [= <-]. left. by eapply split_nonfinal_raises.
Qed.

(** [encode] never fails for lack of loop fuel: every failure of the model
    is an exception of the source. *)
Lemma encode_never_out_of_fuel orig codes rev vocab sep version re dropout st :
  fst (encode orig codes rev vocab sep version re dropout st) ≠ Raise LoopFuel.
Proof.
  unfold encode.
  destruct (if no_dropout dropout then st_cache st !! orig else None);
    [done|].
  destruct (regex_matches re orig); [done|].
  destruct (String.length orig =? 1); [done|].
  destruct (initial_word version orig) as [word|e] eqn:Hinit.
  2:{ unfold initial_word in Hinit.
      repeat case_decide; destruct orig; by simplify_eq. }
  destruct (merge_loop_enough_fuel (length word) codes dropout (st_random st)
              word (st_drawn st) (Nat.le_refl _)) as [[w d] ->].
  destruct (strip_end_marker w) as [w'|e] eqn:Hstrip.
  2:{ unfold strip_end_marker in Hstrip.
      destruct (last w); [|by simplify_eq].
      repeat case_if_in Hstrip; done. }
  simpl. destruct (vocab_given vocab); [|done].
  destruct (check_vocab_and_split _ _ _ _ _) eqn:Hc; [done|].
  apply check_vocab_and_split_raises in Hc as [-> | ->]; done.
Qed.

(** * Further properties of the segmentation engine *)

(** ** The merge loop *)

Lemma regroup_flatten w' w : regroup w' w → flatten w' = flatten w.
Proof.
  induction 1 as [|x w' w _ IH|a b w' w _ IH]; simpl; [done|by rewrite IH|].
  by rewrite str_app_assoc, IH.
Qed.

(** X1. A pass of the merge loop that merges at all returns a strictly
    shorter sequence that spells the same text: symbols are only ever
    concatenated with their neighbours, under dropout too. *)
Theorem merge_pass_keeps_text codes dropout random word drawn new_word drawn' :
  merge_pass codes dropout random word drawn = (Some new_word, drawn') →
  flatten new_word = flatten word ∧ length new_word < length word.
Proof.
  intros [Hre Hlen]%merge_pass_regroup. split; [|done].
  by apply regroup_flatten.
Qed.

Lemma merge_pass_keeps_text_witness :
  merge_pass abc_codes 0 (fun _ => 0%Q) ["a"; "b"; "a"; "b"; "c</w>"] 0
    = (Some ["ab"; "ab"; "c</w>"], 0)
  ∧ flatten ["ab"; "ab"; "c</w>"] = flatten ["a"; "b"; "a"; "b"; "c</w>"]
  ∧ length ["ab"; "ab"; "c</w>"] < length ["a"; "b"; "a"; "b"; "c</w>"].
Proof.
  split; [vm_compute; reflexivity|].
  apply (merge_pass_keeps_text abc_codes 0 (fun _ => 0%Q)
           ["a"; "b"; "a"; "b"; "c</w>"] 0 ["ab"; "ab"; "c</w>"] 0).
  vm_compute. reflexivity.
Defined.

Lemma get_pairs_complete codes dropout random start ps drawn k p rank :
  no_dropout dropout = true →
  ps !! k = Some p → codes !! p = Some rank →
  (rank, start + k, p) ∈ fst (get_pairs codes dropout random start ps drawn).
Proof.
  intros Hd. revert start k.
  induction ps as [|q ps IH]; intros start k Hk Hp; [done|].
  simpl. rewrite Hd. specialize (IH (S start)).
  destruct (get_pairs codes dropout random (S start) ps drawn) as [rest d2]
    eqn:Hrest. simpl in IH.
  destruct k as [|k]; simpl in Hk.
  - injection Hk as ->. rewrite Hp. simpl. rewrite Nat.add_0_r. by left.
  - specialize (IH k Hk Hp). rewrite <-Nat.add_succ_comm.
    destruct (codes !! q); simpl; [by right|done].
Qed.

Lemma get_pairs_in_table codes dropout random start ps drawn c :
  c ∈ fst (get_pairs codes dropout random start ps drawn) →
  codes !! cand_pair c = Some (cand_rank c).
Proof.
  revert start drawn. induction ps as [|p ps IH]; intros start drawn; simpl.
  { intros H. by apply elem_of_nil in H. }
  destruct (if no_dropout dropout then _ else _) as [keep drawn1].
  specialize (IH (S start) drawn1).
  destruct (get_pairs codes dropout random (S start) ps drawn1) as [rest d2].
  simpl in IH.
  destruct (if keep then codes !! p else None) as [rank|] eqn:Hp; simpl;
    [|done].
  intros [->|Hin]%elem_of_cons; [|by auto].
  destruct keep; [done|discriminate].
Qed.

Lemma merge_pass_break codes random word drawn drawn' p :
  merge_pass codes 0 random word drawn = (None, drawn') →
  p ∈ adjacent word → codes !! p = None.
Proof.
  unfold merge_pass. intros Hpass [k Hk]%list_elem_of_lookup.
  destruct (codes !! p) as [rank|] eqn:Hp; [|done].
  pose proof (get_pairs_complete codes 0 random 0 (adjacent word) drawn k p
                rank eq_refl Hk Hp) as Hin.
  destruct (get_pairs codes 0 random 0 (adjacent word) drawn) as [pairs d].
  destruct pairs; [|done]. by apply elem_of_nil in Hin.
Qed.

Lemma merge_loop_regroup_text fuel codes dropout random word drawn w d :
  merge_loop fuel codes dropout random word drawn = Some (w, d) →
  flatten w = flatten word ∧ length w ≤ length word.
Proof.
  revert word drawn. induction fuel as [|fuel IH]; intros word drawn; simpl.
  - destruct (length word <=? 1); [|done]. by intros [= <- <-].
  - destruct (length word <=? 1); [by intros [= <- <-]|].
    destruct (merge_pass codes dropout random word drawn) as [[nw|] d1]
      eqn:Hpass; [|by intros [= <- <-]].
    apply merge_pass_regroup in Hpass as [Hre Hlen].
    intros [Hf Hl]%IH. rewrite Hf, (regroup_flatten _ _ Hre). split; [done|lia].
Qed.

Lemma merge_loop_normal fuel codes random word drawn w d p :
  merge_loop fuel codes 0 random word drawn = Some (w, d) →
  p ∈ adjacent w → codes !! p = None.
Proof.
  revert word drawn. induction fuel as [|fuel IH]; intros word drawn; simpl.
  - destruct (length word <=? 1) eqn:Hlen; [|done]. intros [= <- <-] Hp.
    apply Nat.leb_le in Hlen. destruct word as [|x [|y word]]; simpl in *;
      [by apply elem_of_nil in Hp..|lia].
  - destruct (length word <=? 1) eqn:Hlen.
    { intros [= <- <-] Hp. apply Nat.leb_le in Hlen.
      destruct word as [|x [|y word]]; simpl in *;
        [by apply elem_of_nil in Hp..|lia]. }
    destruct (merge_pass codes 0 random word drawn) as [[nw|] d1] eqn:Hpass.
    + apply IH.
    + intros [= <- <-] Hp. by eapply merge_pass_break.
Qed.

(** X2. Without dropout the merge loop always comes to an end, within as
    many passes as the word has symbols, and it ends on a sequence that
    spells the same text, is no longer than the one it started from and in
    which no two adjacent symbols form a pair of the merge table: no
    applicable merge is left undone. No random value is drawn. *)
Theorem merge_loop_normal_form codes random (word : list Symbol) drawn :
  ∃ w, merge_loop (length word) codes 0 random word drawn = Some (w, drawn)
       ∧ flatten w = flatten word
       ∧ length w ≤ length word
       ∧ ∀ p, p ∈ adjacent w → codes !! p = None.
Proof.
  destruct (merge_loop_enough_fuel (length word) codes 0 random word drawn
              (Nat.le_refl _)) as [[w d] Hloop].
  pose proof (merge_loop_no_dropout _ _ 0 _ _ _ _ _ eq_refl Hloop) as ->.
  exists w. split; [done|].
  destruct (merge_loop_regroup_text _ _ _ _ _ _ _ _ Hloop) as [Hf Hl].
  do 2 (split; [done|]). intros p. by eapply merge_loop_normal.
Qed.

Lemma cand_ltb_rank x c :
  (cand_ltb x c = true → cand_rank x ≤ cand_rank c)
  ∧ (cand_ltb x c = false → cand_rank c ≤ cand_rank x).
Proof.
  unfold cand_ltb. split.
  - intros [H|[H _]%andb_prop]%orb_prop.
    + apply Nat.ltb_lt in H. lia.
    + apply Nat.eqb_eq in H. lia.
  - intros [H _]%orb_false_elim. apply Nat.ltb_ge in H. lia.
Qed.

Lemma min_cand_le_first c cs : cand_rank (min_cand c cs) ≤ cand_rank c.
Proof.
  unfold min_cand. revert c. induction cs as [|y cs IH]; intros c; simpl;
    [done|].
  destruct (cand_ltb_rank y c) as [Ht _].
  destruct (cand_ltb y c); [|apply IH].
  etrans; [apply IH|]. by apply Ht.
Qed.

Lemma min_cand_le c cs x :
  x ∈ c :: cs → cand_rank (min_cand c cs) ≤ cand_rank x.
Proof.
  revert c. induction cs as [|y cs IH]; intros c Hx.
  - apply list_elem_of_singleton in Hx as ->. done.
  - change (min_cand c (y :: cs))
      with (min_cand (if cand_ltb y c then y else c) cs).
    destruct (cand_ltb_rank y c) as [Ht Hf].
    apply elem_of_cons in Hx as [->|[->|Hx]%elem_of_cons].
    + destruct (cand_ltb y c).
      * etrans; [apply min_cand_le_first|]. by apply Ht.
      * apply min_cand_le_first.
    + destruct (cand_ltb y c).
      * apply min_cand_le_first.
      * etrans; [apply min_cand_le_first|]. by apply Hf.
    + apply IH. by right.
Qed.

Lemma merge_positions_keeps word bigram positions i new_word (x : Symbol) :
  x ∈ new_word → x ∈ merge_positions word bigram positions i new_word.
Proof.
  revert i new_word.
  induction positions as [|j rest IH]; intros i new_word Hx; simpl.
  - apply elem_of_app. by left.
  - destruct (j <? i); apply IH; [done|]. apply elem_of_app. by left.
Qed.

Lemma merge_positions_has_bigram word bigram j rest :
  bigram ∈ merge_positions word bigram (j :: rest) 0 [].
Proof.
  simpl. apply merge_positions_keeps. set_solver.
Qed.

(** X3. Without dropout a pass merges the pair of lowest rank: the pair it
    concatenates is in the merge table, occurs as two adjacent symbols of
    the word, no adjacent pair of the word has a smaller rank in the table,
    and the concatenation is a symbol of the new sequence. *)
Theorem merge_pass_lowest_rank codes random word drawn new_word drawn' :
  merge_pass codes 0 random word drawn = (Some new_word, drawn') →
  ∃ a b rank,
    codes !! (a, b) = Some rank
    ∧ (a, b) ∈ adjacent word
    ∧ (∀ p r, p ∈ adjacent word → codes !! p = Some r → rank ≤ r)
    ∧ a +:+ b ∈ new_word.
Proof.
  unfold merge_pass.
  pose proof (λ c, get_pairs_sound codes 0 random 0 (adjacent word) drawn c)
    as Hsound.
  pose proof (λ c, get_pairs_in_table codes 0 random 0 (adjacent word) drawn c)
    as Htable.
  pose proof (λ k p r, get_pairs_complete codes 0 random 0 (adjacent word)
                         drawn k p r eq_refl) as Hcomplete.
  destruct (get_pairs codes 0 random 0 (adjacent word) drawn) as [pairs d].
  simpl in *. destruct pairs as [|c cs]; [done|]. intros [= <- <-].
  pose proof (min_cand_in c cs) as Hmin.
  destruct (min_cand c cs) as [[rank pos] [a b]] eqn:Hm.
  exists a, b, rank. split; [exact (Htable _ Hmin)|]. split; [|split].
  - destruct (Hsound _ Hmin) as (k & _ & Hk).
    by eapply list_elem_of_lookup_2.
  - intros p r [k Hk]%list_elem_of_lookup Hp.
    specialize (Hcomplete k p r Hk Hp).
    pose proof (min_cand_le c cs _ Hcomplete) as Hle. by rewrite Hm in Hle.
  - pose proof (positions_of_nonempty (c :: cs) _ Hmin) as Hne.
    unfold cand_pair in *. simpl in *.
    destruct (positions_of (a, b) (c :: cs)) as [|j rest]; [done|].
    apply merge_positions_has_bigram.
Qed.

Lemma merge_pass_lowest_rank_witness :
  merge_pass abc_codes 0 (fun _ => 0%Q) ["ab"; "c</w>"; "a"; "b"] 0
    = (Some ["ab"; "c</w>"; "ab"], 0)
  ∧ ∃ a b rank,
      abc_codes !! (a, b) = Some rank
      ∧ (a, b) ∈ adjacent ["ab"; "c</w>"; "a"; "b"]
      ∧ (∀ p r, p ∈ adjacent ["ab"; "c</w>"; "a"; "b"] →
                abc_codes !! p = Some r → rank ≤ r)
      ∧ a +:+ b ∈ ["ab"; "c</w>"; "ab"].
Proof.
  split; [vm_compute; reflexivity|].
  apply (merge_pass_lowest_rank abc_codes (fun _ => 0%Q)
           ["ab"; "c</w>"; "a"; "b"] 0 ["ab"; "c</w>"; "ab"] 0).
  vm_compute. reflexivity.
Defined.

(** ** The vocabulary closure *)

Lemma split_nonfinal_noop depth segments rev (vocab : gset string) sep :
  (∀ s, s ∈ segments → s +:+ sep ∈ vocab) →
  split_nonfinal depth segments rev vocab sep = Ok segments.
Proof.
  induction segments as [|s segments IH]; intros Hall; [done|].
  simpl. rewrite decide_True by (apply Hall; by left).
  rewrite IH; [done|]. intros s' Hs'. apply Hall. by right.
Qed.

(** X4. When every subword of a segmentation is listed in the vocabulary in
    the form it will be printed in (with the separator for all but the last,
    bare for the last), the closure returns the segmentation unchanged,
    without a single lookup in the reverse index and at any recursion
    depth. *)
Theorem closure_keeps_listed depth front final_piece rev (vocab : gset string)
    sep :
  (∀ s, s ∈ front → s +:+ sep ∈ vocab) →
  final_piece ∈ vocab →
  check_vocab_and_split depth (front ++ [final_piece]) rev vocab sep
  = Ok (front ++ [final_piece]).
Proof.
  intros Hfront Hlast. unfold check_vocab_and_split.
  rewrite removelast_last, last_snoc, (split_nonfinal_noop _ _ _ _ _ Hfront).
  by rewrite decide_True.
Qed.

Lemma closure_keeps_listed_witness :
  (∀ s, s ∈ ["ab"] → s +:+ "@@" ∈ ({[ "ab@@"; "c" ]} : gset string))
  ∧ "c" ∈ ({[ "ab@@"; "c" ]} : gset string)
  ∧ check_vocab_and_split 0 (["ab"] ++ ["c"]) abc_reverse {[ "ab@@"; "c" ]} "@@"
    = Ok (["ab"] ++ ["c"]).
Proof.
  assert (∀ s, s ∈ ["ab"] → s +:+ "@@" ∈ ({[ "ab@@"; "c" ]} : gset string))
    as Hfront.
  { intros s ->%list_elem_of_singleton. set_solver. }
  assert ("c" ∈ ({[ "ab@@"; "c" ]} : gset string)) as Hlast by set_solver.
  split; [done|]. split; [done|].
  exact (closure_keeps_listed 0 ["ab"] "c" abc_reverse _ "@@" Hfront Hlast).
Defined.

Lemma recursive_split_pieces depth segment rev vocab sep (final : bool) out :
  recursive_split depth segment rev vocab sep final = Ok out →
  ∃ init lst,
    out = init ++ [lst]
    ∧ Forall (inner_piece_ok rev vocab sep) init
    ∧ if final then final_piece_ok rev vocab lst
      else inner_piece_ok rev vocab sep lst.
Proof.
  revert segment final out.
  induction depth as [|depth IH]; intros segment final out; [done|].
  rewrite recursive_split_unfold.
  destruct (rev !! (if final then segment +:+ END_MARKER else segment))
    as [[l r0]|] eqn:Hlook.
  2:{ intros [= <-]. exists [], segment. split; [done|]. split; [done|].
      destruct final; by right. }
  cbv zeta.
  destruct (if decide (l +:+ sep ∈ vocab) then _ else _) as [ls|] eqn:Hls;
    [|done].
  assert (Forall (inner_piece_ok rev vocab sep) ls) as Hlsok.
  { destruct (decide (l +:+ sep ∈ vocab)) as [Hin|_].
    - injection Hls as <-. constructor; [by left|done].
    - apply IH in Hls as (init & lst & -> & Hinit & Hlst).
      apply Forall_app. split; [done|]. by constructor. }
  match goal with
  | |- match ?x with _ => _ end = _ → _ => destruct x as [rs|] eqn:Hrs
  end; [|done].
  intros [= <-].
  assert (∃ init lst, rs = init ++ [lst]
            ∧ Forall (inner_piece_ok rev vocab sep) init
            ∧ if final then final_piece_ok rev vocab lst
              else inner_piece_ok rev vocab sep lst)
    as (init & lst & -> & Hinit & Hlst).
  { destruct final.
    - destruct (bool_decide _) eqn:Hb.
      + injection Hrs as <-. apply bool_decide_eq_true in Hb.
        exists [], (PyStr.drop_end 4 r0). split; [done|]. split; [done|].
        by left.
      + by apply IH in Hrs.
    - destruct (bool_decide _) eqn:Hb.
      + injection Hrs as <-. apply bool_decide_eq_true in Hb.
        exists [], r0. split; [done|]. split; [done|]. by left.
      + by apply IH in Hrs. }
  exists (ls ++ init), lst. split; [by rewrite (assoc_L (++))|].
  split; [|done]. by apply Forall_app.
Qed.

Lemma split_nonfinal_pieces depth segments rev vocab sep out :
  split_nonfinal depth segments rev vocab sep = Ok out →
  Forall (inner_piece_ok rev vocab sep) out.
Proof.
  revert out. induction segments as [|s segments IH]; intros out; simpl.
  - by intros [= <-].
  - destruct (if decide (s +:+ sep ∈ vocab) then _ else _) as [o|] eqn:Ho;
      [|done].
    destruct (split_nonfinal depth segments rev vocab sep) as [o'|]; [|done].
    intros [= <-]. apply Forall_app. split; [|by apply IH].
    destruct (decide (s +:+ sep ∈ vocab)) as [Hin|_].
    + injection Ho as <-. constructor; [by left|done].
    + apply recursive_split_pieces in Ho as (init & lst & -> & Hinit & Hlst).
      apply Forall_app. split; [done|]. by constructor.
Qed.

(** X5. What the closure returns is a sequence of units that are "either
    in-vocabulary, or cannot be split further": every unit but the last is
    listed in the vocabulary with the separator or is not the result of a
    merge, and the last unit is listed as it is or is not the result of a
    word-final merge. *)
Theorem closure_units_listed_or_atomic depth word rev vocab sep out :
  check_vocab_and_split depth word rev vocab sep = Ok out →
  ∃ init lst,
    out = init ++ [lst]
    ∧ Forall (inner_piece_ok rev vocab sep) init
    ∧ final_piece_ok rev vocab lst.
Proof.
  unfold check_vocab_and_split.
  destruct (split_nonfinal depth (removelast word) rev vocab sep) as [o|]
    eqn:Ho; [|done].
  apply split_nonfinal_pieces in Ho.
  destruct (last word) as [segment|]; [|done].
  destruct (decide (segment ∈ vocab)) as [Hin|_].
  - intros [= <-]. exists o, segment. split; [done|]. split; [done|].
    by left.
  - destruct (recursive_split depth segment rev vocab sep true) as [o'|]
      eqn:Ho'; [|done].
    intros [= <-].
    apply recursive_split_pieces in Ho' as (init & lst & -> & Hinit & Hlst).
    exists (o ++ init), lst. split; [by rewrite (assoc_L (++))|].
    split; [|done]. by apply Forall_app.
Qed.

Lemma closure_units_listed_or_atomic_witness :
  check_vocab_and_split 1000 ["abc"] abc_reverse {[ "a@@" ]} "@@"
    = Ok ["a"; "b"; "c"]
  ∧ ∃ init lst,
      ["a"; "b"; "c"] = init ++ [lst]
      ∧ Forall (inner_piece_ok abc_reverse {[ "a@@" ]} "@@") init
      ∧ final_piece_ok abc_reverse {[ "a@@" ]} lst.
Proof.
  split; [vm_compute; reflexivity|].
  apply (closure_units_listed_or_atomic 1000 ["abc"] abc_reverse {[ "a@@" ]}
           "@@" ["a"; "b"; "c"]).
  vm_compute. reflexivity.
Defined.

Lemma flatten_app (a b : list string) :
  flatten (a ++ b) = flatten a +:+ flatten b.
Proof.
  induction a as [|x a IH]; [done|]. simpl. by rewrite IH, str_app_assoc.
Qed.

Lemma flatten_singleton (x : string) : flatten [x] = x.
Proof. simpl. apply str_app_nil_r. Qed.

(** The closure spells the segment it is given, on a reverse index whose
    word-final merges keep the end marker on the right. *)
Section ClosureText.

Context (rev : gmap string (string * string)) (vocab : gset string)
  (sep : string) (Hrev : rev_marked rev).

Lemma recursive_split_flatten depth segment (final : bool) out :
  recursive_split depth segment rev vocab sep final = Ok out →
  flatten out = segment.
Proof.
  revert segment final out.
  induction depth as [|depth IH]; intros segment final out; [done|].
  rewrite recursive_split_unfold.
  destruct (rev !! (if final then segment +:+ END_MARKER else segment))
    as [[l r0]|] eqn:Hlook.
  2:{ intros [= <-]. apply flatten_singleton. }
  destruct (Hrev _ _ _ Hlook) as (Hkey & _ & _ & Hend). cbv zeta.
  assert (segment = l +:+ (if final then PyStr.drop_end 4 r0 else r0))
    as Hseg.
  { destruct final; [|done].
    destruct (endswith_split _ _ (Hend (endswith_app segment END_MARKER)))
      as [k ->].
    rewrite <-str_app_assoc in Hkey. apply str_app_inv_r in Hkey.
    change 4 with (String.length END_MARKER). by rewrite drop_end_app. }
  destruct (if decide (l +:+ sep ∈ vocab) then _ else _) as [ls|] eqn:Hls;
    [|done].
  assert (flatten ls = l) as Hl.
  { destruct (decide (l +:+ sep ∈ vocab)).
    - injection Hls as <-. apply flatten_singleton.
    - by apply IH in Hls. }
  match goal with
  | |- match ?x with _ => _ end = _ → _ => destruct x as [rs|] eqn:Hrs
  end; [|done].
  intros [= <-]. rewrite flatten_app, Hl, Hseg. f_equal.
  case_if_in Hrs.
  - injection Hrs as <-. apply flatten_singleton.
  - by apply IH in Hrs.
Qed.

Lemma split_nonfinal_flatten depth segments out :
  split_nonfinal depth segments rev vocab sep = Ok out →
  flatten out = flatten segments.
Proof.
  revert out. induction segments as [|s segments IH]; intros out; simpl.
  - by intros [= <-].
  - destruct (if decide (s +:+ sep ∈ vocab) then _ else _) as [o|] eqn:Ho;
      [|done].
    destruct (split_nonfinal depth segments rev vocab sep) as [o'|]; [|done].
    intros [= <-]. rewrite flatten_app, (IH o' eq_refl). f_equal.
    destruct (decide (s +:+ sep ∈ vocab)).
    + injection Ho as <-. apply flatten_singleton.
    + by apply recursive_split_flatten in Ho.
Qed.

Lemma check_vocab_and_split_flatten depth word out :
  check_vocab_and_split depth word rev vocab sep = Ok out →
  flatten out = flatten word.
Proof.
  unfold check_vocab_and_split.
  destruct (split_nonfinal depth (removelast word) rev vocab sep) as [o|]
    eqn:Ho; [|done].
  apply split_nonfinal_flatten in Ho.
  destruct (last word) as [segment|] eqn:Hlast; [|done].
  apply last_Some in Hlast as [front ->]. rewrite removelast_last in Ho.
  rewrite !flatten_app, flatten_singleton.
  destruct (decide (segment ∈ vocab)).
  - intros [= <-]. by rewrite flatten_app, flatten_singleton, Ho.
  - destruct (recursive_split depth segment rev vocab sep true) as [o'|]
      eqn:Ho'; [|done].
    intros [= <-]. apply recursive_split_flatten in Ho'.
    by rewrite flatten_app, Ho, Ho'.
Qed.

Lemma split_nonfinal_terminates depth segments :
  (∀ s, s ∈ segments → String.length s + 2 ≤ depth) →
  ∃ out, split_nonfinal depth segments rev vocab sep = Ok out.
Proof.
  induction segments as [|s segments IH]; intros Hlen; [by eexists|].
  simpl. destruct IH as [o' ->]; [intros s' Hs'; apply Hlen; by right|].
  destruct (recursive_split_terminates rev vocab sep depth s false Hrev)
    as [o Ho].
  { specialize (Hlen s ltac:(by left)). lia. }
  rewrite Ho. case_if; by eexists.
Qed.

End ClosureText.

(** X6. On a reverse index of real merges (both parts non-empty) whose
    word-final merges keep the end marker on their right part, the closure
    of a non-empty segmentation returns as soon as the recursion depth
    allowed exceeds the length of its longest subword by two, and what it
    returns spells the same text. *)
Theorem closure_terminates depth (word : list Symbol) rev vocab sep :
  rev_marked rev → word ≠ [] →
  (∀ s, s ∈ word → String.length s + 2 ≤ depth) →
  ∃ out, check_vocab_and_split depth word rev vocab sep = Ok out
         ∧ flatten out = flatten word.
Proof.
  intros Hrev Hne Hlen.
  cut (∃ out, check_vocab_and_split depth word rev vocab sep = Ok out).
  { intros [out Hout]. exists out. split; [done|].
    by eapply check_vocab_and_split_flatten. }
  unfold check_vocab_and_split.
  destruct word as [|segment front _] using rev_ind; [done|].
  rewrite removelast_last, last_snoc.
  destruct (split_nonfinal_terminates rev vocab sep Hrev depth front)
    as [o ->].
  { intros s Hs. apply Hlen. apply elem_of_app. by left. }
  destruct (recursive_split_terminates rev vocab sep depth segment true Hrev)
    as [o' ->].
  { apply Hlen. apply elem_of_app. right. by left. }
  case_if; by eexists.
Qed.

Lemma closure_terminates_witness :
  rev_marked abc_reverse ∧ ["abc"] ≠ []
  ∧ (∀ s, s ∈ ["abc"] → String.length s + 2 ≤ 5)
  ∧ ∃ out, check_vocab_and_split 5 ["abc"] abc_reverse {[ "a@@" ]} "@@"
           = Ok out
           ∧ flatten out = flatten ["abc"].
Proof.
  assert (rev_marked abc_reverse) as Hrev.
  { intros k l r Hk. unfold abc_reverse in Hk.
    apply lookup_insert_Some in Hk as [[<- [= <- <-]]|[_ Hk]]; [done|].
    apply lookup_singleton_Some in Hk as [<- [= <- <-]]. done. }
  assert (∀ s, s ∈ ["abc"] → String.length s + 2 ≤ 5) as Hlen.
  { intros s ->%list_elem_of_singleton. simpl. lia. }
  split; [done|]. split; [done|]. split; [done|].
  exact (closure_terminates 5 ["abc"] abc_reverse {[ "a@@" ]} "@@" Hrev
           ltac:(done) Hlen).
Defined.

(** ** [encode]: text, pieces and failures *)

Lemma strip_end_marker_spec (front : list string) (x : string) :
  strip_end_marker (front ++ [x +:+ END_MARKER])
  = Ok (if decide (x = "") then front else front ++ [x]).
Proof.
  unfold strip_end_marker. rewrite last_snoc, removelast_last.
  destruct (decide (x = "")) as [->|Hx].
  - by rewrite str_app_nil_l, String.eqb_refl.
  - destruct (String.eqb_spec (x +:+ END_MARKER) END_MARKER) as [Heq|_].
    + exfalso. apply Hx. by apply (str_app_inv_r x "" END_MARKER).
    + rewrite (endswith_app x END_MARKER). do 3 f_equal.
      exact (drop_end_app x END_MARKER).
Qed.

Lemma regroup_nonempty w' w :
  regroup w' w → Forall (λ s, s ≠ "") w → Forall (λ s, s ≠ "") w'.
Proof.
  induction 1 as [|x w' w _ IH|a b w' w _ IH]; intros Hall; [done| |].
  - inversion Hall; subst. constructor; auto.
  - inversion Hall as [|? ? Ha Hrest]; subst.
    inversion Hrest; subst. constructor; [|auto].
    by destruct a.
Qed.

Lemma merge_loop_nonempty fuel codes dropout random word drawn w d :
  Forall (λ s, s ≠ "") word →
  merge_loop fuel codes dropout random word drawn = Some (w, d) →
  Forall (λ s, s ≠ "") w.
Proof.
  revert word drawn. induction fuel as [|fuel IH]; intros word drawn Hall;
    simpl.
  - destruct (length word <=? 1); [|done]. by intros [= <- <-].
  - destruct (length word <=? 1); [by intros [= <- <-]|].
    destruct (merge_pass codes dropout random word drawn) as [[nw|] d1]
      eqn:Hpass; [|by intros [= <- <-]].
    apply merge_pass_regroup in Hpass as [Hre _].
    apply IH. by eapply regroup_nonempty.
Qed.

Lemma chars_nonempty (s : string) : Forall (λ s, s ≠ "") (PyStr.chars s).
Proof. induction s; constructor; done. Qed.

Lemma initial_word_nonempty version orig word :
  initial_word version orig = Ok word → Forall (λ s, s ≠ "") word.
Proof.
  unfold initial_word. repeat case_decide; [| |done].
  - intros [= <-]. apply Forall_app. split; [apply chars_nonempty|].
    by constructor.
  - destruct orig as [|c orig]; [done|]. intros [= <-].
    apply Forall_app. split; [apply chars_nonempty|].
    constructor; [|done]. intros Hnil.
    apply (f_equal String.length) in Hnil. rewrite str_length_app in Hnil.
    simpl in Hnil. lia.
Qed.

(** The symbols left once the merge loop is over and the end marker is
    removed: they spell the word and none of them is empty. *)
Lemma segmentation_pieces version orig word0 fuel codes dropout random drawn
    word1 drawn' :
  initial_word version orig = Ok word0 →
  merge_loop fuel codes dropout random word0 drawn = Some (word1, drawn') →
  ∃ word2, strip_end_marker word1 = Ok word2
           ∧ flatten word2 = orig
           ∧ Forall (λ s, s ≠ "") word2
           ∧ (orig ≠ "" → word2 ≠ []).
Proof.
  intros Hinit Hloop.
  pose proof (merge_loop_nonempty _ _ _ _ _ _ _ _
                (initial_word_nonempty _ _ _ Hinit) Hloop) as Hne.
  apply initial_word_end_marked in Hinit.
  apply (merge_loop_end_marked _ _ _ _ orig) in Hloop; [|done].
  destruct Hloop as (front & x & -> & Horig).
  rewrite strip_end_marker_spec. eexists. split; [done|].
  apply Forall_app in Hne as [Hfront _].
  destruct (decide (x = "")) as [->|Hx].
  - rewrite str_app_nil_r in Horig. split; [done|]. split; [done|].
    intros Ho ->. by apply Ho.
  - split; [by rewrite flatten_app, flatten_singleton|]. split.
    + apply Forall_app. split; [done|]. by constructor.
    + intros _. by destruct front.
Qed.

Lemma cache_spells_insert cache orig r :
  cache_spells cache → flatten (items r) = orig →
  cache_spells (<[orig := r]> cache).
Proof.
  intros Hc Hr w r'. destruct (decide (orig = w)) as [->|Hne].
  - rewrite lookup_insert_eq. by intros [= <-].
  - rewrite lookup_insert_ne by done. apply Hc.
Qed.

(** X7. Segmentation loses no text. Whenever [encode] returns, the subwords
    it returns, concatenated, are the word it was given: under either
    version, with any merge table and dropout, and with a vocabulary too
    provided the word-final merges of the reverse index keep the end marker
    on their right part. The cache is one whose entries spell their keys,
    as the empty cache does, and it stays so. *)
Theorem encode_spells_word orig codes rev vocab sep version re dropout st r st' :
  vocab_given vocab = None ∨ rev_marked rev →
  cache_spells (st_cache st) →
  encode orig codes rev vocab sep version re dropout st = (Ok r, st') →
  flatten (items r) = orig ∧ cache_spells (st_cache st').
Proof.
  intros Hvocab Hcache. unfold encode.
  destruct (if no_dropout dropout then st_cache st !! orig else None)
    as [hit|] eqn:Hhit.
  { intros [= <- <-]. split; [|done].
    destruct (no_dropout dropout); [|done]. by eapply Hcache. }
  destruct (regex_matches re orig).
  { intros [= <- <-]. simpl. split; [apply str_app_nil_r|].
    apply cache_spells_insert; [done|]. apply flatten_singleton. }
  destruct (String.length orig =? 1).
  { intros [= <- <-]. split; [apply flatten_chars|done]. }
  destruct (initial_word version orig) as [word|] eqn:Hinit; [|done].
  destruct (merge_loop _ _ _ _ _ _) as [[word' drawn]|] eqn:Hloop; [|done].
  destruct (segmentation_pieces _ _ _ _ _ _ _ _ _ _ Hinit Hloop)
    as (w & -> & Hw & _). simpl.
  destruct (vocab_given vocab) as [v|].
  - destruct Hvocab as [?|Hrev]; [done|].
    destruct (check_vocab_and_split _ _ _ _ _) as [out|] eqn:Hout; [|done].
    apply (check_vocab_and_split_flatten _ _ _ Hrev) in Hout.
    intros [= <- <-]. simpl. rewrite Hout, Hw. split; [done|].
    apply cache_spells_insert; [done|]. simpl. by rewrite Hout.
  - intros [= <- <-]. simpl. split; [done|].
    by apply cache_spells_insert.
Qed.

Lemma encode_spells_word_witness :
  (vocab_given (Some {[ "a@@" ]}) = None ∨ rev_marked abc_reverse)
  ∧ cache_spells (st_cache idle)
  ∧ encode "abc" abc_codes abc_reverse (Some {[ "a@@" ]}) "@@" [0; 2]%Z None 0
      idle
    = (Ok (PList ["a"; "b"; "c"]),
       set_cache {[ "abc" := PList ["a"; "b"; "c"] ]} idle)
  ∧ flatten ["a"; "b"; "c"] = "abc"
  ∧ cache_spells {[ "abc" := PList ["a"; "b"; "c"] ]}.
Proof.
  assert (rev_marked abc_reverse) as Hrev.
  { intros k l r Hk. unfold abc_reverse in Hk.
    apply lookup_insert_Some in Hk as [[<- [= <- <-]]|[_ Hk]]; [done|].
    apply lookup_singleton_Some in Hk as [<- [= <- <-]]. done. }
  assert (cache_spells (st_cache idle)) as Hcache.
  { intros w r. simpl. by rewrite lookup_empty. }
  assert (encode "abc" abc_codes abc_reverse (Some {[ "a@@" ]}) "@@" [0; 2]%Z
            None 0 idle
          = (Ok (PList ["a"; "b"; "c"]),
             set_cache {[ "abc" := PList ["a"; "b"; "c"] ]} idle)) as Henc
    by (vm_compute; reflexivity).
  split; [by right|]. do 2 (split; [done|]).
  exact (encode_spells_word "abc" abc_codes abc_reverse (Some {[ "a@@" ]})
           "@@" [0; 2]%Z None 0 idle _ _ (or_intror Hrev) Hcache Henc).
Defined.

Lemma check_vocab_and_split_index_error depth word rev vocab sep :
  check_vocab_and_split depth word rev vocab sep = Raise IndexError →
  word = [].
Proof.
  unfold check_vocab_and_split.
  destruct (split_nonfinal depth (removelast word) rev vocab sep) eqn:Hs.
  - destruct (last word) as [segment|] eqn:Hlast.
    + case_if; [done|].
      destruct (recursive_split depth segment rev vocab sep true) eqn:H;
        [done|].
      intros [= ->]. by apply recursive_split_raises in H.
    + intros _. by apply last_None in Hlast.
  - intros [= ->]. by apply split_nonfinal_raises in Hs.
Qed.

(** X8. The ways [encode] can fail. It raises [NotImplementedError] only
    for a version other than 0.1 and 0.2, [IndexError] only on the empty
    word, and [RecursionError] only when a vocabulary is given; it raises
    nothing else, and a call that fails leaves the cache as it was. *)
Theorem encode_failures orig codes rev vocab sep version re dropout st e st' :
  encode orig codes rev vocab sep version re dropout st = (Raise e, st') →
  ((e = NotImplementedError ∧ version ≠ [0; 1]%Z ∧ version ≠ [0; 2]%Z)
   ∨ (e = IndexError ∧ orig = "")
   ∨ (e = RecursionError ∧ vocab_given vocab ≠ None))
  ∧ st_cache st' = st_cache st.
Proof.
  unfold encode.
  destruct (if no_dropout dropout then st_cache st !! orig else None); [done|].
  destruct (regex_matches re orig); [done|].
  destruct (String.length orig =? 1); [done|].
  destruct (initial_word version orig) as [word|e0] eqn:Hinit.
  2:{ intros [= <- <-]. split; [|done]. unfold initial_word in Hinit.
      repeat case_decide; destruct orig; simplify_eq; auto. }
  destruct (merge_loop_enough_fuel (length word) codes dropout (st_random st)
              word (st_drawn st) (Nat.le_refl _)) as [[w d] Hloop].
  rewrite Hloop.
  destruct (segmentation_pieces _ _ _ _ _ _ _ _ _ _ Hinit Hloop)
    as (w2 & -> & _ & _ & Hne). simpl.
  destruct (vocab_given vocab) as [v|]; [|done].
  destruct (check_vocab_and_split _ _ _ _ _) as [out|e0] eqn:Hout; [done|].
  intros [= <- <-]. split; [|done].
  destruct (check_vocab_and_split_raises _ _ _ _ _ _ Hout) as [-> | ->].
  - right. right. done.
  - right. left. split; [done|].
    apply check_vocab_and_split_index_error in Hout.
    destruct (decide (orig = "")) as [|Ho]; [done|]. by apply Hne in Ho.
Qed.

Lemma encode_failures_witness :
  encode "ab" abc_codes abc_reverse None "@@" [0; 3]%Z None 0 idle
    = (Raise NotImplementedError, idle)
  ∧ ((NotImplementedError = NotImplementedError
      ∧ [0; 3]%Z ≠ [0; 1]%Z ∧ [0; 3]%Z ≠ [0; 2]%Z)
     ∨ (NotImplementedError = IndexError ∧ "ab" = "")
     ∨ (NotImplementedError = RecursionError ∧ vocab_given None ≠ None))
  ∧ st_cache idle = st_cache idle.
Proof.
  split; [reflexivity|].
  apply (encode_failures "ab" abc_codes abc_reverse None "@@" [0; 3]%Z None 0
           idle NotImplementedError idle).
  reflexivity.
Defined.

Lemma length_flatten_nonempty (l : list string) :
  Forall (λ s, s ≠ "") l → length l ≤ String.length (flatten l).
Proof.
  induction 1 as [|x l Hx _ IH]; [done|]. simpl. rewrite str_length_app.
  apply length_pos in Hx. lia.
Qed.

Lemma length_chars (s : string) : length (PyStr.chars s) = String.length s.
Proof. induction s as [|c s IH]; [done|]. simpl. by rewrite IH. Qed.

Lemma cache_solid_insert cache orig r :
  cache_solid cache → (orig ≠ "" → solid orig (items r)) →
  cache_solid (<[orig := r]> cache).
Proof.
  intros Hc Hr w r'. destruct (decide (orig = w)) as [->|Hne].
  - rewrite lookup_insert_eq. by intros [= <-].
  - rewrite lookup_insert_ne by done. apply Hc.
Qed.

Lemma cache_solid_empty : cache_solid ∅.
Proof. intros w r. by rewrite lookup_empty. Qed.

(** Without a vocabulary, what [encode] returns for a non-empty word is
    solid, and the cache stays solid. *)
Lemma encode_solid orig codes rev vocab sep version re dropout st r st' :
  vocab_given vocab = None → orig ≠ "" → cache_solid (st_cache st) →
  encode orig codes rev vocab sep version re dropout st = (Ok r, st') →
  solid orig (items r) ∧ cache_solid (st_cache st').
Proof.
  intros Hvocab Horig Hcache. unfold encode.
  destruct (if no_dropout dropout then st_cache st !! orig else None)
    as [hit|] eqn:Hhit.
  { intros [= <- <-]. split; [|done].
    destruct (no_dropout dropout); [|done]. by eapply Hcache. }
  assert (solid orig [orig]) as Hone.
  { split; [done|]. split; [by constructor|].
    apply length_pos in Horig. simpl. lia. }
  destruct (regex_matches re orig).
  { intros [= <- <-]. simpl. split; [done|].
    by apply cache_solid_insert. }
  destruct (String.length orig =? 1) eqn:Hlen.
  { intros [= <- <-]. split; [|done]. apply Nat.eqb_eq in Hlen.
    simpl. by rewrite (chars_single _ Hlen). }
  destruct (initial_word version orig) as [word|] eqn:Hinit; [|done].
  destruct (merge_loop _ _ _ _ _ _) as [[word' drawn]|] eqn:Hloop; [|done].
  destruct (segmentation_pieces _ _ _ _ _ _ _ _ _ _ Hinit Hloop)
    as (w & -> & Hw & Hne & Hnil). simpl. rewrite Hvocab.
  intros [= <- <-]. simpl.
  assert (solid orig w) as Hsolid.
  { split; [by apply Hnil|]. split; [done|].
    rewrite <-Hw. by apply length_flatten_nonempty. }
  split; [done|]. by apply cache_solid_insert.
Qed.

(** X9. Without a vocabulary, [encode] returns for a non-empty word at
    least one subword, no empty subword, and no more subwords than the word
    has characters. The cache is one whose entries have this property, as
    the empty cache does, and it stays so. *)
Theorem encode_pieces orig codes rev vocab sep version re dropout st r st' :
  vocab_given vocab = None → orig ≠ "" → cache_solid (st_cache st) →
  encode orig codes rev vocab sep version re dropout st = (Ok r, st') →
  items r ≠ []
  ∧ (∀ s, s ∈ items r → s ≠ "")
  ∧ length (items r) ≤ String.length orig
  ∧ cache_solid (st_cache st').
Proof.
  intros Hvocab Horig Hcache Henc.
  destruct (encode_solid _ _ _ _ _ _ _ _ _ _ _ Hvocab Horig Hcache Henc)
    as [(Hne & Hall & Hlen) Hcache'].
  split; [done|]. split; [|done]. intros s Hs.
  by eapply Forall_forall in Hall.
Qed.

Lemma encode_pieces_witness :
  vocab_given None = None ∧ "abab" ≠ "" ∧ cache_solid (st_cache idle)
  ∧ encode "abab" abc_codes abc_reverse None "@@" [0; 1]%Z None 0 idle
    = (Ok (PTuple ["ab"; "ab"]),
       set_cache {[ "abab" := PTuple ["ab"; "ab"] ]} idle)
  ∧ ["ab"; "ab"] ≠ []
  ∧ (∀ s, s ∈ ["ab"; "ab"] → s ≠ "")
  ∧ length ["ab"; "ab"] ≤ String.length "abab"
  ∧ cache_solid {[ "abab" := PTuple ["ab"; "ab"] ]}.
Proof.
  assert (encode "abab" abc_codes abc_reverse None "@@" [0; 1]%Z None 0 idle
          = (Ok (PTuple ["ab"; "ab"]),
             set_cache {[ "abab" := PTuple ["ab"; "ab"] ]} idle)) as Henc
    by (vm_compute; reflexivity).
  split; [done|]. split; [done|]. split; [exact cache_solid_empty|].
  split; [done|].
  exact (encode_pieces "abab" abc_codes abc_reverse None "@@" [0; 1]%Z None 0
           idle _ _ eq_refl ltac:(done) cache_solid_empty Henc).
Defined.

(** With a supported version and no vocabulary, [encode] returns on every
    non-empty word. *)
Lemma encode_succeeds orig codes rev vocab sep version re dropout st :
  version = [0; 1]%Z ∨ version = [0; 2]%Z →
  vocab_given vocab = None → orig ≠ "" →
  ∃ r st', encode orig codes rev vocab sep version re dropout st = (Ok r, st').
Proof.
  intros Hversion Hvocab Horig. unfold encode.
  destruct (if no_dropout dropout then st_cache st !! orig else None);
    [by eexists _, _|].
  destruct (regex_matches re orig); [by eexists _, _|].
  destruct (String.length orig =? 1); [by eexists _, _|].
  destruct (initial_word version orig) as [word|e] eqn:Hinit.
  2:{ unfold initial_word in Hinit.
      destruct Hversion as [-> | ->]; simpl in Hinit; [done|].
      by destruct orig. }
  destruct (merge_loop_enough_fuel (length word) codes dropout (st_random st)
              word (st_drawn st) (Nat.le_refl _)) as [[w d] Hloop].
  rewrite Hloop.
  destruct (segmentation_pieces _ _ _ _ _ _ _ _ _ _ Hinit Hloop)
    as (w2 & -> & _). simpl. rewrite Hvocab. by eexists _, _.
Qed.

(** ** The tokenizer: [segment_tokens], [segment], [process_line] *)

Lemma nonempty_true (s : string) : nonempty s = true ↔ s ≠ "".
Proof.
  unfold nonempty. destruct (String.eqb_spec s ""); split; intros; done.
Qed.

Lemma segment_tokens_succeeds (self : BPE.t) tokens dropout st :
  BPE.glossaries self = [] →
  BPE.version self = [0; 1]%Z ∨ BPE.version self = [0; 2]%Z →
  vocab_given (BPE.vocab self) = None →
  cache_solid (st_cache st) →
  ∃ out st', BPE.segment_tokens self tokens dropout st = (Ok out, st')
             ∧ cache_solid (st_cache st').
Proof.
  intros Hgloss Hversion Hvocab. revert st.
  induction tokens as [|word tokens IH]; intros st Hcache; simpl.
  { by eexists _, _. }
  destruct (nonempty word) eqn:Hword; [|by apply IH].
  apply nonempty_true in Hword.
  unfold BPE._isolate_glossaries. rewrite Hgloss. simpl.
  unfold mbind, M_bind, bind, BPE.encode_word.
  destruct (encode_succeeds word (BPE.bpe_codes self)
              (BPE.bpe_codes_reverse self) (BPE.vocab self)
              (BPE.separator self) (BPE.version self)
              (BPE.glossaries_regex self) dropout st Hversion Hvocab Hword)
    as (r & st1 & Henc).
  rewrite Henc.
  destruct (encode_solid _ _ _ _ _ _ _ _ _ _ _ Hvocab Hword Hcache Henc)
    as [(Hne & _) Hcache1].
  unfold mret, M_ret, ret. rewrite app_nil_r.
  destruct (last (items r)) as [final|] eqn:Hlast.
  2:{ by apply last_None in Hlast. }
  destruct (IH st1 Hcache1) as (out & st2 & -> & Hcache2).
  by eexists _, _.
Qed.

(** X10. A tokenizer of version 0.1 or 0.2 without vocabulary and without
    glossaries never fails on a line: [process_line] returns a line for
    every input, under any dropout. The cache is one a tokenizer owns
    (solid, as the empty cache is), and it stays so. *)
Theorem process_line_succeeds (self : BPE.t) line dropout st :
  BPE.glossaries self = [] →
  BPE.version self = [0; 1]%Z ∨ BPE.version self = [0; 2]%Z →
  vocab_given (BPE.vocab self) = None →
  cache_solid (st_cache st) →
  ∃ out st', BPE.process_line self line dropout st = (Ok out, st')
             ∧ cache_solid (st_cache st').
Proof.
  intros Hgloss Hversion Hvocab Hcache.
  unfold BPE.process_line, BPE.segment, mbind, M_bind, bind.
  destruct (segment_tokens_succeeds self
              (PyStr.split PyStr.SP (PyStr.strip PyStr.crlfsp line)) dropout
              st Hgloss Hversion Hvocab Hcache) as (out & st' & -> & Hcache').
  unfold mret, M_ret, ret. by eexists _, _.
Qed.

Lemma process_line_succeeds_witness :
  BPE.glossaries (BPE.mk [0; 2]%Z abc_codes abc_reverse "@@" None [] None) = []
  ∧ ([0; 2]%Z = [0; 1]%Z ∨ [0; 2]%Z = [0; 2]%Z)
  ∧ vocab_given None = None
  ∧ cache_solid (st_cache idle)
  ∧ ∃ out st',
      BPE.process_line (BPE.mk [0; 2]%Z abc_codes abc_reverse "@@" None [] None)
        (" abc  abd" +:+ NL) 0 idle = (Ok out, st')
      ∧ cache_solid (st_cache st').
Proof.
  split; [done|]. split; [by right|]. split; [done|].
  split; [exact cache_solid_empty|].
  apply (process_line_succeeds
           (BPE.mk [0; 2]%Z abc_codes abc_reverse "@@" None [] None));
    [done | by right | done | exact cache_solid_empty].
Defined.

(** X11. Tokens are segmented one after the other: segmenting the tokens
    [t1 ++ t2] is segmenting [t1], then [t2] in the state [t1] left (its
    cache and its position in the random stream), and appending the two
    outputs; a failure in [t1] is the failure of the whole, and [t2] is then
    never looked at. *)
Theorem segment_tokens_app (self : BPE.t) t1 t2 dropout st :
  BPE.segment_tokens self (t1 ++ t2) dropout st
  = match BPE.segment_tokens self t1 dropout st with
    | (Ok o1, st1) =>
        match BPE.segment_tokens self t2 dropout st1 with
        | (Ok o2, st2) => (Ok (o1 ++ o2), st2)
        | (Raise e, st2) => (Raise e, st2)
        end
    | (Raise e, st1) => (Raise e, st1)
    end.
Proof.
  revert st. induction t1 as [|word t1 IH]; intros st; simpl.
  - unfold mret, M_ret, ret.
    by destruct (BPE.segment_tokens self t2 dropout st) as [[?|?] ?].
  - destruct (nonempty word); [|apply IH].
    unfold mbind, M_bind, bind, mret, M_ret, ret.
    destruct (BPE.encode_segments self _ dropout st) as [[new_word|e] st0];
      [|done].
    destruct (last new_word) as [final|]; [|done].
    rewrite IH.
    destruct (BPE.segment_tokens self t1 dropout st0) as [[o1|e] st1]; [|done].
    destruct (BPE.segment_tokens self t2 dropout st1) as [[o2|e] st2]; [|done].
    by rewrite <-(assoc_L (++)).
Qed.

(** X12. Empty tokens leave no trace ("eliminate double spaces"): dropping
    them from the token list changes neither the output nor the final
    state. *)
Theorem segment_tokens_skips_empty (self : BPE.t) tokens dropout st :
  BPE.segment_tokens self (List.filter nonempty tokens) dropout st
  = BPE.segment_tokens self tokens dropout st.
Proof.
  revert st. induction tokens as [|word tokens IH]; intros st; [done|].
  simpl. destruct (nonempty word) eqn:Hword; [|apply IH].
  simpl. rewrite Hword. unfold mbind, M_bind, bind.
  destruct (BPE.encode_segments self _ dropout st) as [[new_word|e] st0];
    [|done].
  destruct (last new_word) as [final|]; [|done]. by rewrite IH.
Qed.

(** *** Leading and trailing whitespace *)

Lemma lstrip_suffix (p : ascii → bool) (s : string) :
  ∃ t, s = t +:+ PyStr.lstrip p s ∧ all_chars p t = true.
Proof.
  induction s as [|c s (t & Ht & Hp)]; [by exists ""|]. simpl.
  destruct (p c) eqn:Hc.
  - exists (String c t). rewrite str_app_cons, <-Ht. simpl.
    by rewrite Hc, Hp.
  - by exists "".
Qed.

Lemma rstrip_prefix (p : ascii → bool) (s : string) :
  ∃ t, s = PyStr.rstrip p s +:+ t ∧ all_chars p t = true.
Proof.
  induction s as [|c s (t & Ht & Hp)]; [by exists ""|]. simpl.
  destruct (PyStr.rstrip p s) as [|c' r] eqn:Hr.
  - rewrite str_app_nil_l in Ht. subst t. destruct (p c) eqn:Hc.
    + exists (String c s). simpl. by rewrite Hc, Hp.
    + by exists s.
  - exists t. rewrite !str_app_cons. by rewrite <-str_app_cons, <-Ht.
Qed.

Lemma lstrip_app (p : ascii → bool) (a b : string) :
  PyStr.lstrip p a ≠ "" → PyStr.lstrip p (a +:+ b) = PyStr.lstrip p a +:+ b.
Proof.
  induction a as [|c a IH]; [done|]. rewrite str_app_cons. simpl.
  destruct (p c); [apply IH|]. intros _. by rewrite str_app_cons.
Qed.

Lemma take_start_app (a b : string) :
  PyStr.take_start (String.length a) (a +:+ b) = a.
Proof. apply substring_app_l. Qed.

Lemma take_end_app (a b : string) :
  PyStr.take_end (String.length b) (a +:+ b) = b.
Proof.
  unfold PyStr.take_end. rewrite str_length_app.
  replace (String.length a + String.length b - String.length b)
    with (String.length a) by lia.
  by rewrite substring_app_r, substring_all.
Qed.

(** X13. [process_line] keeps the margins of a line. A line with some
    content is a run of spaces, carriage returns and newlines, then its
    stripped content, then another such run; [process_line] returns the
    first run, what [segment] makes of the line, and the second run, and
    fails when [segment] fails. *)
Theorem process_line_margins (self : BPE.t) line dropout st :
  PyStr.strip PyStr.crlfsp line ≠ "" →
  ∃ lead trail,
    all_chars PyStr.crlfsp lead = true
    ∧ all_chars PyStr.crlfsp trail = true
    ∧ line = lead +:+ PyStr.strip PyStr.crlfsp line +:+ trail
    ∧ BPE.process_line self line dropout st
      = match BPE.segment self line dropout st with
        | (Ok seg, st') => (Ok (lead +:+ seg +:+ trail), st')
        | (Raise e, st') => (Raise e, st')
        end.
Proof.
  intros Hcontent. unfold PyStr.strip in *.
  destruct (rstrip_prefix PyStr.crlfsp line) as (trail & Hline & Htrail).
  destruct (lstrip_suffix PyStr.crlfsp (PyStr.rstrip PyStr.crlfsp line))
    as (lead & Hr & Hlead).
  set (r := PyStr.rstrip PyStr.crlfsp line) in *.
  set (core := PyStr.lstrip PyStr.crlfsp r) in *.
  assert (line = lead +:+ core +:+ trail) as Hsplit.
  { by rewrite <-str_app_assoc, <-Hr. }
  assert (PyStr.lstrip PyStr.crlfsp line = core +:+ trail) as Hl.
  { rewrite Hline at 1. by apply lstrip_app. }
  assert (String.length r = String.length lead + String.length core) as Hlr.
  { by rewrite Hr at 1; rewrite str_length_app. }
  assert (String.length line = String.length r + String.length trail) as Hll.
  { by rewrite Hline at 1; rewrite str_length_app. }
  apply length_pos in Hcontent.
  exists lead, trail. do 3 (split; [done|]).
  unfold BPE.process_line, mbind, M_bind, bind.
  destruct (BPE.segment self line dropout st) as [[seg|e] st']; [|done].
  unfold mret, M_ret, ret. do 2 f_equal. fold r.
  rewrite Hl, str_length_app.
  replace (String.length line - (String.length core + String.length trail))
    with (String.length lead) by lia.
  replace (String.length line - String.length r)
    with (String.length trail) by lia.
  assert ((if String.length lead =? 0 then ""
           else PyStr.take_start (String.length lead) line) = lead) as ->.
  { destruct (String.length lead =? 0) eqn:H0.
    - apply Nat.eqb_eq in H0. by destruct lead.
    - rewrite Hsplit at 1. apply take_start_app. }
  assert ((String.length trail =? String.length line) = false) as ->.
  { apply Nat.eqb_neq. lia. }
  cbn [negb]. rewrite andb_true_r.
  destruct (String.length trail =? 0) eqn:H0; cbn [negb].
  - apply Nat.eqb_eq in H0. destruct trail; [|done].
    by rewrite !str_app_nil_r.
  - rewrite str_app_assoc. do 2 f_equal. rewrite Hline at 1.
    apply take_end_app.
Qed.

Lemma process_line_margins_witness :
  PyStr.strip PyStr.crlfsp (" abc  abd" +:+ NL) ≠ ""
  ∧ ∃ lead trail,
      all_chars PyStr.crlfsp lead = true
      ∧ all_chars PyStr.crlfsp trail = true
      ∧ " abc  abd" +:+ NL
        = lead +:+ PyStr.strip PyStr.crlfsp (" abc  abd" +:+ NL) +:+ trail
      ∧ BPE.process_line
          (BPE.mk [0; 2]%Z abc_codes abc_reverse "@@" None [] None)
          (" abc  abd" +:+ NL) 0 idle
        = match BPE.segment
                  (BPE.mk [0; 2]%Z abc_codes abc_reverse "@@" None [] None)
                  (" abc  abd" +:+ NL) 0 idle with
          | (Ok seg, st') => (Ok (lead +:+ seg +:+ trail), st')
          | (Raise e, st') => (Raise e, st')
          end.
Proof.
  assert (PyStr.strip PyStr.crlfsp (" abc  abd" +:+ NL) ≠ "") as Hcontent
    by (vm_compute; discriminate).
  split; [done|].
  exact (process_line_margins
           (BPE.mk [0; 2]%Z abc_codes abc_reverse "@@" None [] None)
           (" abc  abd" +:+ NL) 0 idle Hcontent).
Defined.

(** ** The tables built by [__init__] *)

Lemma dict_set_to_map {K V} `{Countable K} (k : K) (v : V) d :
  (list_to_map (dict_set k v d) : gmap K V) = <[k := v]> (list_to_map d).
Proof.
  induction d as [|[k' v'] d IH]; simpl; [done|].
  destruct (decide (k = k')) as [->|Hne]; simpl.
  - by rewrite insert_insert_eq.
  - rewrite IH. by apply insert_insert_ne.
Qed.

Lemma dict_snoc {K V} `{EqDecision K} (l : list (K * V)) kv :
  dict (l ++ [kv]) = dict_set kv.1 kv.2 (dict l).
Proof. unfold dict. by rewrite fold_left_app. Qed.

(** As a map, [dict] of a reversed list is the list read with its first
    occurrences winning. *)
Lemma dict_rev_to_map {K V} `{Countable K} (l : list (K * V)) :
  (list_to_map (dict (rev l)) : gmap K V) = list_to_map l.
Proof.
  induction l as [|[k v] l IH]; [done|].
  simpl. by rewrite dict_snoc, dict_set_to_map, IH.
Qed.

Lemma codes_dict_to_map (pairs : list (Symbol * Symbol)) :
  (list_to_map (BPE.codes_dict pairs) : gmap (string * string) nat)
  = list_to_map (map (λ ic, (ic.2, ic.1)) (enumerate pairs)).
Proof. unfold BPE.codes_dict. by rewrite map_rev, dict_rev_to_map. Qed.

Lemma first_occurrence_lookup (ps : list (Symbol * Symbol)) a p i :
  (list_to_map (map (λ ic : nat * (string * string), (ic.2, ic.1))
                  (combine (seq a (length ps)) ps))
     : gmap (string * string) nat) !! p = Some i
  ↔ ∃ k, i = a + k ∧ ps !! k = Some p ∧ ∀ j, j < k → ps !! j ≠ Some p.
Proof.
  revert a. induction ps as [|q ps IH]; intros a; simpl.
  - rewrite lookup_empty. split; [done|]. by intros (k & _ & ? & _).
  - destruct (decide (q = p)) as [->|Hne].
    + rewrite lookup_insert_eq. split.
      * intros [= <-]. exists 0. split; [lia|]. split; [done|]. lia.
      * intros (k & -> & Hk & Hfirst). destruct k as [|k]; [f_equal; lia|].
        by destruct (Hfirst 0 ltac:(lia)).
    + rewrite lookup_insert_ne by done. rewrite IH. split.
      * intros (k & -> & Hk & Hfirst). exists (S k). split; [lia|].
        split; [done|]. intros [|j] Hj; simpl; [congruence|].
        apply Hfirst. lia.
      * intros (k & -> & Hk & Hfirst). destruct k as [|k]; simpl in Hk;
          [congruence|].
        exists k. split; [lia|]. split; [done|]. intros j Hj.
        apply (Hfirst (S j)). lia.
Qed.

Lemma check_codes_ok offset i items pairs :
  BPE.check_codes offset i items = Ok pairs →
  items = map (λ p : string * string, [p.1; p.2]) pairs.
Proof.
  revert i pairs. induction items as [|item items IH]; intros i pairs; simpl.
  - by intros [= <-].
  - destruct item as [|x [|y [|z item]]]; try done.
    destruct (BPE.check_codes offset (S i) items) as [ps|] eqn:Hps; [|done].
    intros [= <-]. simpl. f_equal. by eapply IH.
Qed.

(** X14. The rank of a merge is the position of its first line. In a table
    that [__init__] accepts, the pair [(a, b)] has rank [i] exactly when
    line [i] among the merge lines considered reads [a b] and no earlier
    line does: of duplicate lines only the first counts. *)
Theorem init_rank_first_occurrence codes merges sep vocab glossaries
    v offset body bpe a b i :
  BPE.read_header codes = Ok (v, offset, body) →
  BPE.__init__ codes merges sep vocab glossaries = Ok bpe →
  BPE.bpe_codes bpe !! (a, b) = Some i
  ↔ BPE.read_codes body merges !! i = Some [a; b]
    ∧ ∀ j, j < i → BPE.read_codes body merges !! j ≠ Some [a; b].
Proof.
  intros Hhead. unfold BPE.__init__. rewrite Hhead.
  destruct (BPE.check_codes offset 0 (BPE.read_codes body merges))
    as [pairs|] eqn:Hcheck; [|done].
  intros [= <-]. simpl. apply check_codes_ok in Hcheck. rewrite Hcheck.
  rewrite codes_dict_to_map. unfold enumerate.
  rewrite first_occurrence_lookup.
  assert (∀ k, map (λ p : string * string, [p.1; p.2]) pairs !! k
               = Some [a; b] ↔ pairs !! k = Some (a, b)) as Hfmap.
  { intros k. rewrite list_lookup_fmap.
    destruct (pairs !! k) as [[x y]|]; simpl; [|done].
    split; intros [= -> ->]; done. }
  split.
  - intros (k & -> & Hk & Hfirst). simpl. split; [by apply Hfmap|].
    intros j Hj Hjk. apply Hfmap in Hjk. by apply (Hfirst j).
  - intros [Hi Hfirst]. exists i. split; [done|]. split; [by apply Hfmap|].
    intros j Hj Hjk. apply (Hfirst j Hj). by apply Hfmap.
Qed.

Lemma init_rank_first_occurrence_witness :
  BPE.read_header ("a b" +:+ NL +:+ "c d" +:+ NL +:+ "a b" +:+ NL)
    = Ok ([0; 1]%Z, 1, "a b" +:+ NL +:+ "c d" +:+ NL +:+ "a b" +:+ NL)
  ∧ ∃ bpe,
      BPE.__init__ ("a b" +:+ NL +:+ "c d" +:+ NL +:+ "a b" +:+ NL) (-1) "@@"
        None None = Ok bpe
      ∧ (BPE.bpe_codes bpe !! ("a", "b") = Some 0
         ↔ BPE.read_codes ("a b" +:+ NL +:+ "c d" +:+ NL +:+ "a b" +:+ NL)
             (-1) !! 0 = Some ["a"; "b"]
           ∧ ∀ j, j < 0 →
                  BPE.read_codes
                    ("a b" +:+ NL +:+ "c d" +:+ NL +:+ "a b" +:+ NL) (-1) !! j
                  ≠ Some ["a"; "b"]).
Proof.
  split; [reflexivity|]. eexists. split; [vm_compute; reflexivity|].
  apply (init_rank_first_occurrence
           ("a b" +:+ NL +:+ "c d" +:+ NL +:+ "a b" +:+ NL) (-1) "@@" None None
           [0; 1]%Z 1 ("a b" +:+ NL +:+ "c d" +:+ NL +:+ "a b" +:+ NL));
    [reflexivity | vm_compute; reflexivity].
Defined.

Lemma dict_to_map_keys {K V} `{Countable K} (l : list (K * V)) k :
  k ∈ l.*1 → is_Some ((list_to_map (dict l) : gmap K V) !! k).
Proof.
  intros Hk. rewrite <-(rev_involutive l), dict_rev_to_map.
  apply not_eq_None_Some. intros Hnone%not_elem_of_list_to_map.
  apply Hnone.
  apply list_elem_of_fmap in Hk as (kv & -> & Hkv).
  apply list_elem_of_fmap. exists kv. split; [done|].
  by apply list_elem_of_In, in_rev, list_elem_of_In in Hkv.
Qed.

(** X15. The reverse index mirrors the merge table. In a tokenizer built by
    [__init__], every entry of the reverse index maps the concatenation of a
    pair of the merge table to that pair, both parts of the pair being
    non-empty; and the concatenation of every pair of the merge table is a
    key of the reverse index. *)
Theorem init_reverse_index codes merges sep vocab glossaries bpe :
  BPE.__init__ codes merges sep vocab glossaries = Ok bpe →
  (∀ k a b, BPE.bpe_codes_reverse bpe !! k = Some (a, b) →
            k = a +:+ b ∧ a ≠ "" ∧ b ≠ ""
            ∧ is_Some (BPE.bpe_codes bpe !! (a, b)))
  ∧ (∀ a b i, BPE.bpe_codes bpe !! (a, b) = Some i →
              is_Some (BPE.bpe_codes_reverse bpe !! (a +:+ b))).
Proof.
  unfold BPE.__init__.
  destruct (BPE.read_header codes) as [[[v offset] body]|]; [|done].
  destruct (BPE.check_codes offset 0 (BPE.read_codes body merges))
    as [pairs|] eqn:Hcheck; [|done].
  intros [= <-]. simpl. split.
  - intros k a b Hk. apply elem_of_list_to_map_2 in Hk.
    unfold BPE.reverse_dict in Hk. apply dict_subset in Hk.
    apply list_elem_of_fmap in Hk as ([[a' b'] i] & [= -> -> ->] & Hd).
    split; [done|].
    assert (is_Some ((list_to_map (BPE.codes_dict pairs)
                        : gmap (string * string) nat) !! (a', b'))) as Hsome.
    { apply not_eq_None_Some. intros Hnone%not_elem_of_list_to_map.
      apply Hnone. apply list_elem_of_fmap. by exists (a', b', i). }
    unfold BPE.codes_dict in Hd. apply dict_subset in Hd.
    apply list_elem_of_fmap in Hd as ([i' [a'' b'']] & [= <- <- <-] & Hin).
    unfold enumerate in Hin.
    apply list_elem_of_In, in_rev, in_combine_r, list_elem_of_In in Hin.
    apply (check_codes_pairs _ _ _ _ _ _ Hcheck) in Hin.
    apply read_codes_items in Hin as [line Hline].
    symmetry in Hline. by apply split_strip_pair in Hline as [? ?].
  - intros a b i Hi. unfold BPE.reverse_dict. apply dict_to_map_keys.
    apply elem_of_list_to_map_2 in Hi.
    apply list_elem_of_fmap. exists (a +:+ b, (a, b)). split; [done|].
    apply list_elem_of_fmap. by exists (a, b, i).
Qed.

Lemma init_reverse_index_witness :
  ∃ bpe,
    BPE.__init__ ("a b" +:+ NL +:+ "ab c</w>" +:+ NL) (-1) "@@" None None
      = Ok bpe
    ∧ (∀ k a b, BPE.bpe_codes_reverse bpe !! k = Some (a, b) →
                k = a +:+ b ∧ a ≠ "" ∧ b ≠ ""
                ∧ is_Some (BPE.bpe_codes bpe !! (a, b)))
    ∧ (∀ a b i, BPE.bpe_codes bpe !! (a, b) = Some i →
                is_Some (BPE.bpe_codes_reverse bpe !! (a +:+ b))).
Proof.
  eexists. split; [vm_compute; reflexivity|].
  apply (init_reverse_index ("a b" +:+ NL +:+ "ab c</w>" +:+ NL) (-1) "@@"
           None None).
  vm_compute. reflexivity.
Defined.

(** ** Glossaries *)













Lemma filter_considered_index {A} merges (l : list A) a i n x :
  List.filter (fun ni => BPE.considered merges (fst ni))
    (combine (seq a (length l)) l) !! i = Some (n, x) →
  a + i ≤ n ∧ BPE.considered merges n = true.
Proof.
  revert a i. induction l as [|y l IH]; intros a i; [done|].
  simpl. destruct (BPE.considered merges a) eqn:Ha.
  - destruct i as [|i]; simpl.
    + intros [= <- <-]. split; [lia|done].
    + intros [Hle Hc]%IH. split; [lia|done].
  - intros [Hle Hc]%IH. split; [lia|done].
Qed.

(** X18. The merge limit. With a limit [merges] other than -1, a table
    built by [__init__] holds only merges of rank below [merges]: merge
    lines from the [merges]-th on are not loaded (and a limit of 0 or a
    negative one loads none). *)
Theorem init_merge_limit codes merges sep vocab glossaries bpe a b i :
  merges ≠ (-1)%Z →
  BPE.__init__ codes merges sep vocab glossaries = Ok bpe →
  BPE.bpe_codes bpe !! (a, b) = Some i →
  (Z.of_nat i < merges)%Z.
Proof.
  intros Hlimit. unfold BPE.__init__.
  destruct (BPE.read_header codes) as [[[v offset] body]|]; [|done].
  destruct (BPE.check_codes offset 0 (BPE.read_codes body merges))
    as [pairs|] eqn:Hcheck; [|done].
  intros [= <-]. simpl. apply check_codes_ok in Hcheck.
  rewrite codes_dict_to_map. unfold enumerate.
  intros (k & -> & Hk & _)%first_occurrence_lookup. simpl.
  assert (is_Some (BPE.read_codes body merges !! k)) as [item Hitem].
  { rewrite Hcheck, list_lookup_fmap, Hk. by eexists. }
  unfold BPE.read_codes, enumerate in Hitem.
  rewrite list_lookup_fmap in Hitem.
  destruct (List.filter _ _ !! k) as [[n line]|] eqn:Hn; [|done].
  apply filter_considered_index in Hn as [Hle Hc].
  unfold BPE.considered in Hc. apply orb_prop in Hc as [Hc|Hc].
  - apply Z.ltb_lt in Hc. lia.
  - apply Z.eqb_eq in Hc. done.
Qed.

Lemma init_merge_limit_witness :
  (1 ≠ -1)%Z
  ∧ ∃ bpe,
      BPE.__init__ ("a b" +:+ NL +:+ "c d" +:+ NL) 1 "@@" None None = Ok bpe
      ∧ BPE.bpe_codes bpe !! ("a", "b") = Some 0
      ∧ (Z.of_nat 0 < 1)%Z.
Proof.
  split; [done|]. eexists. split; [vm_compute; reflexivity|].
  split; [vm_compute; reflexivity|].
  eapply (init_merge_limit ("a b" +:+ NL +:+ "c d" +:+ NL) 1 "@@" None None
            _ "a" "b" 0); [done | vm_compute; reflexivity
                          | vm_compute; reflexivity].
Defined.

(** ** Dropout *)

Lemma get_pairs_draws codes dropout random start ps drawn :
  snd (get_pairs codes dropout random start ps drawn)
  = if no_dropout dropout then drawn else drawn + length ps.
Proof.
  revert start drawn. induction ps as [|p ps IH]; intros start drawn; simpl.
  - destruct (no_dropout dropout); [done|lia].
  - destruct (no_dropout dropout) eqn:Hd.
    + specialize (IH (S start) drawn).
      destruct (get_pairs codes dropout random (S start) ps drawn)
        as [rest d2]. simpl in IH. subst d2. by destruct (codes !! p).
    + specialize (IH (S start) (S drawn)).
      destruct (get_pairs codes dropout random (S start) ps (S drawn))
        as [rest d2]. simpl in IH. subst d2.
      destruct (if negb _ then _ else _); simpl; lia.
Qed.

Lemma length_adjacent (word : list Symbol) :
  length (adjacent word) = length word - 1.
Proof.
  unfold adjacent. rewrite length_zip. destruct word; cbn [length tail]; lia.
Qed.

(** X19. What dropout costs in random values. Under dropout every pass of
    the merge loop draws one value for every pair of adjacent symbols,
    whether the pair is in the merge table or not ([random.random()] is
    called before the table is consulted); without dropout no value is
    drawn. *)
Theorem merge_pass_draws codes dropout random (word : list Symbol) drawn :
  snd (merge_pass codes dropout random word drawn)
  = if no_dropout dropout then drawn else drawn + (length word - 1).
Proof.
  unfold merge_pass.
  pose proof (get_pairs_draws codes dropout random 0 (adjacent word) drawn)
    as H.
  destruct (get_pairs codes dropout random 0 (adjacent word) drawn)
    as [pairs d]. simpl in H. rewrite length_adjacent in H.
  by destruct pairs.
Qed.

Lemma get_pairs_all_dropped codes dropout random start ps drawn :
  no_dropout dropout = false →
  (∀ n, Qle_bool (random n) dropout = true) →
  fst (get_pairs codes dropout random start ps drawn) = [].
Proof.
  intros Hd Hall. revert start drawn.
  induction ps as [|p ps IH]; intros start drawn; [done|].
  simpl. rewrite Hd, Hall. simpl.
  specialize (IH (S start) (S drawn)).
  destruct (get_pairs codes dropout random (S start) ps (S drawn)).
  by simpl in *.
Qed.

Lemma merge_loop_all_dropped fuel codes dropout random (word : list Symbol)
    drawn :
  no_dropout dropout = false →
  (∀ n, Qle_bool (random n) dropout = true) →
  length word ≤ fuel →
  ∃ d, merge_loop fuel codes dropout random word drawn = Some (word, d).
Proof.
  intros Hd Hall Hfuel. destruct fuel as [|fuel]; simpl.
  - destruct (length word <=? 1) eqn:H; [by eexists|].
    apply Nat.leb_gt in H. lia.
  - destruct (length word <=? 1); [by eexists|].
    unfold merge_pass.
    pose proof (get_pairs_all_dropped codes dropout random 0 (adjacent word)
                  drawn Hd Hall) as H.
    destruct (get_pairs codes dropout random 0 (adjacent word) drawn)
      as [pairs d]. simpl in H. subst pairs. by eexists.
Qed.

Lemma chars_app (a b : string) :
  PyStr.chars (a +:+ b) = PyStr.chars a ++ PyStr.chars b.
Proof.
  induction a as [|c a IH]; [done|]. rewrite str_app_cons. simpl.
  by rewrite IH.
Qed.

Lemma take_end_one (s : string) :
  s ≠ "" → PyStr.chars (PyStr.take_end 1 s) = [PyStr.take_end 1 s].
Proof.
  intros Hs. apply chars_single. unfold PyStr.take_end.
  induction s as [|c s IH]; [done|]. destruct s as [|c' s]; [done|].
  specialize (IH ltac:(done)). simpl in *. by rewrite Nat.sub_0_r in *.
Qed.

(** X20. Dropout at its extreme. When every random value drawn is at most
    the dropout rate (as with a rate of 1), no merge is ever applied:
    under either version and whatever the merge table, a word of two or
    more characters that is not glossary-protected is returned, without
    vocabulary, as the tuple of its characters. *)
Theorem encode_full_dropout orig codes rev vocab sep version re dropout st :
  no_dropout dropout = false →
  (∀ n, Qle_bool (st_random st n) dropout = true) →
  version = [0; 1]%Z ∨ version = [0; 2]%Z →
  vocab_given vocab = None →
  regex_matches re orig = false →
  String.length orig ≠ 1 → orig ≠ "" →
  fst (encode orig codes rev vocab sep version re dropout st)
  = Ok (PTuple (PyStr.chars orig)).
Proof.
  intros Hd Hall Hversion Hvocab Hre Hlen Horig. unfold encode.
  rewrite Hd, Hre. apply Nat.eqb_neq in Hlen. rewrite Hlen.
  assert (∃ front x, initial_word version orig
                     = Ok (front ++ [x +:+ END_MARKER])
                     ∧ (if decide (x = "") then front else front ++ [x])
                       = PyStr.chars orig)
    as (front & x & -> & Hchars).
  { unfold initial_word. destruct Hversion as [-> | ->]; simpl.
    - by exists (PyStr.chars orig), "".
    - destruct orig as [|c orig]; [done|].
      eexists _, _. split; [done|].
      rewrite decide_False.
      + rewrite <-(take_end_one (String c orig)), <-chars_app by done.
        by rewrite drop_take_end.
      + intros H. pose proof (drop_take_end (String c orig) ltac:(done)) as Hs.
        rewrite H, str_app_nil_r in Hs.
        apply (f_equal String.length) in Hs. unfold PyStr.drop_end in Hs.
        assert (∀ s n, String.length (String.substring 0 n s) ≤ n) as Hsub.
        { clear. induction s as [|c s IH]; intros [|n]; simpl; try lia.
          specialize (IH n). lia. }
        specialize (Hsub (String c orig) (String.length (String c orig) - 1)).
        simpl in *. lia. }
  destruct (merge_loop_all_dropped (length (front ++ [x +:+ END_MARKER]))
              codes dropout (st_random st) (front ++ [x +:+ END_MARKER])
              (st_drawn st) Hd Hall (Nat.le_refl _)) as [d ->].
  rewrite strip_end_marker_spec. simpl. by rewrite Hvocab, Hchars.
Qed.

Lemma encode_full_dropout_witness :
  no_dropout 1 = false
  ∧ (∀ n, Qle_bool (st_random (BPE.fresh (fun _ => 1 # 2) 1000) n) 1 = true)
  ∧ ([0; 2]%Z = [0; 1]%Z ∨ [0; 2]%Z = [0; 2]%Z)
  ∧ vocab_given None = None
  ∧ regex_matches None "abc" = false
  ∧ String.length "abc" ≠ 1 ∧ "abc" ≠ ""
  ∧ fst (encode "abc" abc_codes abc_reverse None "@@" [0; 2]%Z None 1
           (BPE.fresh (fun _ => 1 # 2) 1000))
    = Ok (PTuple ["a"; "b"; "c"]).
Proof.
  split; [done|]. split; [done|]. split; [by right|]. split; [done|].
  split; [done|]. split; [done|]. split; [done|].
  apply (encode_full_dropout "abc" abc_codes abc_reverse None "@@" [0; 2]%Z
           None 1 (BPE.fresh (fun _ => 1 # 2) 1000));
    [done | done | by right | done | done | done | done].
Defined.
